(** * A verification development for the MovieLens / OMDb ETL pipeline.

    The development embeds the Python sources of the pipeline as
    executable Rocq functions,

      - [src/load.py]        modules [Chunking] and [Load],
      - [src/database.py]    module [Database],
      - [src/api_client.py]  modules [ApiClient] and [CacheFile],
      - [src/extract.py]     modules [Titles], [Ids] and [Extract],
      - [src/transform.py]   modules [Titles], [Transform], [Genres],
                             [Details] and [Transformed],
      - [src/etl.py]         module [Etl],

    and then states and proves the properties the design document gives
    for them, and further properties of the same functions.  Python
    dictionaries are finite maps ([gmap]), exceptions are
    an explicit [Outcome], the network and the clock are an explicit world
    state, SQL tables are finite maps from their keys, and pandas tables
    are lists of rows under a list of column names. *)

From Stdlib Require Import ZArith QArith Qminmax Qpower Qround Ascii String List Lia.
From Equations Require Import Equations.
From Equations.Prop Require Import Logic.
From stdpp Require Import gmap strings pretty list fin_maps sorting.

Open Scope Z_scope.
Open Scope string_scope.
Open Scope list_scope.

(** ** Python exceptions and results *)

Inductive Exn : Type :=
| KeyError (what : string)
| MergeError (what : string)
| IntegrityError (what : string)
| ValueError (what : string).

Inductive Outcome (A : Type) : Type :=
| Return (a : A)
| Raise (e : Exn).
Arguments Return {A} a.
Arguments Raise {A} e.

#[global] Instance Outcome_ret : MRet Outcome := fun _ a => Return a.
#[global] Instance Outcome_bind : MBind Outcome := fun _ _ k m =>
  match m with
  | Return a => k a
  | Raise e => Raise e
  end.

(** ** [src/load.py]: chunking *)

Module Chunking.
Section Chunked.
Context {A : Type}.

(** [list(islice(iterator, size))]: the next [size] items, and the
    iterator advanced past them.  A negative [size] makes [islice] raise;
    batch sizes are natural numbers here. *)
Definition islice (iterator : list A) (size : nat) : list A * list A :=
  (take size iterator, drop size iterator).

(** [_chunked]: the generator's [while True] loop, the chunks listed in
    the order they are yielded.  The loop stops at the first empty
    chunk. *)
Equations? _chunked (iterable : list A) (size : nat) : list (list A)
  by wf (length iterable) lt :=
_chunked iterable size with inspect (fst (islice iterable size)) := {
  | @exist nil _ => nil;
  | @exist (x :: chunk) E =>
      (x :: chunk) :: _chunked (snd (islice iterable size)) size }.
Proof.
  unfold islice in *; simpl in *.
  destruct size; [rewrite take_0 in E; discriminate|].
  destruct iterable; [discriminate|].
  rewrite length_drop; simpl; lia.
Qed.
End Chunked.
End Chunking.

(** ** [src/database.py]: connections and the [transaction] context manager *)

Module Database.
Section Connection.
Context {Store : Type}.

(** An [sqlite3.Connection]: the durable state as of the last commit, the
    state the connection currently sees (with the writes of the open
    transaction), and the [total_changes] counter. *)
Record Connection : Type := {
  committed : Store;
  pending : Store;
  total_changes : nat
}.

Definition commit (c : Connection) : Connection :=
  {| committed := pending c; pending := pending c;
     total_changes := total_changes c |}.

Definition rollback (c : Connection) : Connection :=
  {| committed := committed c; pending := committed c;
     total_changes := total_changes c |}.

(** Code that runs against a connection and may raise. *)
Definition DB (A : Type) : Type := Connection -> Connection * Outcome A.

(** [for x in xs: f(x)], stopping at the first exception. *)
Fixpoint for_each {X : Type} (f : X -> DB unit) (xs : list X) : DB unit :=
  fun c =>
    match xs with
    | [] => (c, Return tt)
    | x :: xs' =>
        match f x c with
        | (c', Return _) => for_each f xs' c'
        | (c', Raise e) => (c', Raise e)
        end
    end.

(** [with transaction(connection) as cursor: body]: commit when the body
    returns, roll back and re-raise when it raises. *)
Definition transaction {A : Type} (body : DB A) : DB A :=
  fun connection =>
    match body connection with
    | (c', Return a) => (commit c', Return a)
    | (c', Raise e) => (rollback c', Raise e)
    end.

(** One SQL statement with its parameters bound to a row: the new state
    and the number of rows it changed, or a constraint failure, which
    leaves the state as it was. *)
Definition Statement (Row : Type) : Type := Row -> Store -> Outcome (Store * nat).

Definition execute {Row : Type} (query : Statement Row) (row : Row) : DB unit :=
  fun c =>
    match query row (pending c) with
    | Return (s', n) =>
        ({| committed := committed c; pending := s';
            total_changes := total_changes c + n |}, Return tt)
    | Raise e => (c, Raise e)
    end.

(** [cursor.executemany(query, rows)]: the statement once per row; rows
    before a failing one stay written in the open transaction. *)
Definition executemany {Row : Type} (query : Statement Row) (rows : list Row) : DB unit :=
  for_each (execute query) rows.
End Connection.
Arguments Connection Store : clear implicits.
Arguments DB Store A : clear implicits.
Arguments Statement Store Row : clear implicits.
End Database.

(** ** The relational store *)

Module Schema.
(** A MovieDetail row without its key: director, plot, boxOffice,
    imdbRating, runtime, actors, country, language, awards and the
    serialized payload. *)
Record Detail : Type := {
  director : option string; plot : option string;
  boxOffice : option string; imdbRating : option string;
  runtime : option string; actors : option string;
  country : option string; language : option string;
  awards : option string; apiResponseJson : option string
}.

(** Modelled from the spec: the schema file [sql/schema.sql] is not among
    the sources.  The data model gives five entities: Movie with the
    movie id as primary key; Genre with a generated integer id and a
    unique name; MovieGenre as a set of (movieId, genreId) pairs; Rating
    with the uniqueness key (userId, movieId, timestamp); MovieDetail
    with the movie id as key (1:1 with Movie).  A table with a primary
    key is a finite map from the key to the rest of the row. *)
Record Store : Type := {
  movies : gmap Z (string * option Z * option string);
  genres : gmap string Z;
  genre_seq : Z;
  movie_genres : gset (Z * Z);
  ratings : gmap (Z * Z * Z) Q;
  movie_details : gmap Z Detail
}.

Definition empty_store : Store :=
  {| movies := ∅; genres := ∅; genre_seq := 0; movie_genres := ∅;
     ratings := ∅; movie_details := ∅ |}.

Definition set_movies (s : Store) (m : gmap Z (string * option Z * option string)) : Store :=
  {| movies := m; genres := genres s; genre_seq := genre_seq s;
     movie_genres := movie_genres s; ratings := ratings s;
     movie_details := movie_details s |}.

Definition set_genres (s : Store) (g : gmap string Z) (next : Z) : Store :=
  {| movies := movies s; genres := g; genre_seq := next;
     movie_genres := movie_genres s; ratings := ratings s;
     movie_details := movie_details s |}.

Definition set_movie_genres (s : Store) (mg : gset (Z * Z)) : Store :=
  {| movies := movies s; genres := genres s; genre_seq := genre_seq s;
     movie_genres := mg; ratings := ratings s;
     movie_details := movie_details s |}.

Definition set_ratings (s : Store) (r : gmap (Z * Z * Z) Q) : Store :=
  {| movies := movies s; genres := genres s; genre_seq := genre_seq s;
     movie_genres := movie_genres s; ratings := r;
     movie_details := movie_details s |}.

Definition set_movie_details (s : Store) (d : gmap Z Detail) : Store :=
  {| movies := movies s; genres := genres s; genre_seq := genre_seq s;
     movie_genres := movie_genres s; ratings := ratings s;
     movie_details := d |}.

(** Row counts per table, in the order movies, genres, movie_genres,
    ratings, movie_details. *)
Definition row_counts (s : Store) : nat * nat * nat * nat * nat :=
  (size (movies s), size (genres s), size (movie_genres s),
   size (ratings s), size (movie_details s)).

(** Modelled from the spec: the declared foreign keys MovieGenre->Movie,
    MovieGenre->Genre, Rating->Movie, MovieDetail->Movie, enforced at
    write time ([PRAGMA foreign_keys = ON] in [get_connection]). *)
Definition movie_exists (s : Store) (movieId : Z) : bool :=
  bool_decide (is_Some (movies s !! movieId)).

Definition genre_id_exists (s : Store) (genreId : Z) : bool :=
  bool_decide (Exists (fun kv => kv.2 = genreId) (map_to_list (genres s))).

Definition fk_failed {A : Type} : Outcome A :=
  Raise (IntegrityError "FOREIGN KEY constraint failed").

(** [INSERT OR IGNORE INTO movies (movieId, title, year, imdbId)]. *)
Definition sql_insert_movie : Database.Statement Store (Z * string * option Z * option string) :=
  fun '(movieId, title, year, imdbId) s =>
    match movies s !! movieId with
    | Some _ => Return (s, 0%nat)
    | None => Return (set_movies s (<[movieId := (title, year, imdbId)]> (movies s)), 1%nat)
    end.

(** [INSERT OR IGNORE INTO genres (genreName)]: a new name takes the next
    generated id. *)
Definition sql_insert_genre : Database.Statement Store string :=
  fun genreName s =>
    match genres s !! genreName with
    | Some _ => Return (s, 0%nat)
    | None =>
        let genreId := genre_seq s + 1 in
        Return (set_genres s (<[genreName := genreId]> (genres s)) genreId, 1%nat)
    end.

(** [INSERT OR IGNORE INTO movie_genres (movieId, genreId)]: a present
    pair is skipped; a new pair must reference a movie and a genre. *)
Definition sql_insert_movie_genre : Database.Statement Store (Z * Z) :=
  fun '(movieId, genreId) s =>
    if bool_decide ((movieId, genreId) ∈ movie_genres s) then Return (s, 0%nat)
    else if movie_exists s movieId && genre_id_exists s genreId
    then Return (set_movie_genres s ({[ (movieId, genreId) ]} ∪ movie_genres s), 1%nat)
    else fk_failed.

(** [INSERT OR IGNORE INTO ratings (userId, movieId, rating, timestamp)]. *)
Definition sql_insert_rating : Database.Statement Store (Z * Z * Q * Z) :=
  fun '(userId, movieId, rating, timestamp) s =>
    match ratings s !! (userId, movieId, timestamp) with
    | Some _ => Return (s, 0%nat)
    | None =>
        if movie_exists s movieId
        then Return (set_ratings s (<[(userId, movieId, timestamp) := rating]> (ratings s)), 1%nat)
        else fk_failed
    end.

(** [INSERT OR REPLACE INTO movie_details (...)]: a row with the same
    movie id is deleted, then the new row is written. *)
Definition sql_replace_movie_detail : Database.Statement Store (Z * Detail) :=
  fun '(movieId, detail) s =>
    if movie_exists s movieId
    then Return (set_movie_details s (<[movieId := detail]> (delete movieId (movie_details s))), 1%nat)
    else fk_failed.
End Schema.

(** ** [src/load.py]: the loaders *)

Module Load.
Import Chunking Database Schema.

(** The normalized record sets handed to the loaders. *)
Record MovieRecord : Type := {
  movieId : Z; cleanTitle : string; year : option Z; imdbId : option string
}.
Record MovieGenreRecord : Type := { mg_movieId : Z; genreName : string }.
(** A rating's timestamp is an instant, in nanoseconds since the epoch. *)
Record RatingRecord : Type := {
  userId : Z; r_movieId : Z; rating : Q; timestamp : Z
}.
Record DetailRecord : Type := { d_movieId : Z; d_fields : Detail }.

Definition _execute_chunks {Row : Type} (query : Statement Store Row)
    (rows : list Row) (batch_size : nat) : DB Store unit :=
  for_each (fun chunk => executemany query chunk) (_chunked rows batch_size).

(** The tail every loader shares: the chunks run inside one [with
    transaction(connection)] block, and the call returns the growth of
    [total_changes]. *)
Definition run_insert {Row : Type} (query : Statement Store Row)
    (rows : list Row) (batch_size : nat) : DB Store nat :=
  fun connection =>
    let before := total_changes connection in
    match transaction (_execute_chunks query rows batch_size) connection with
    | (c', Return _) => (c', Return (total_changes c' - before)%nat)
    | (c', Raise e) => (c', Raise e)
    end.

(** The loops that build [rows] from a record set. *)
Definition movie_rows (movies : list MovieRecord) : list (Z * string * option Z * option string) :=
  map (fun movie => (movieId movie, cleanTitle movie, year movie, imdbId movie)) movies.

Definition insert_movies (movies : list MovieRecord) (batch_size : nat) : DB Store nat :=
  let rows := movie_rows movies in
  run_insert sql_insert_movie rows batch_size.

Definition insert_genres (genres : list string) (batch_size : nat) : DB Store nat :=
  run_insert sql_insert_genre genres batch_size.

(** [SELECT genreId, genreName FROM genres], as a dict from name to id. *)
Definition _genre_map (connection : Connection Store) : gmap string Z :=
  Schema.genres (pending connection).

(** A pair whose genre name has no id, or the falsy id 0, is left out. *)
Definition movie_genre_rows (genre_lookup : gmap string Z)
    (movie_genres : list MovieGenreRecord) : list (Z * Z) :=
  omap (fun row =>
          match genre_lookup !! genreName row with
          | Some genre_id => if Z.eqb genre_id 0 then None else Some (mg_movieId row, genre_id)
          | None => None
          end) movie_genres.

Definition insert_movie_genres (movie_genres : list MovieGenreRecord) (batch_size : nat) : DB Store nat :=
  fun connection =>
    let genre_lookup := _genre_map connection in
    let rows := movie_genre_rows genre_lookup movie_genres in
    run_insert sql_insert_movie_genre rows batch_size connection.

(** [int(row['timestamp'].timestamp())]: whole seconds, truncated. *)
Definition epoch_seconds (instant : Z) : Z := instant ÷ 1000000000.

Definition rating_rows (ratings : list RatingRecord) : list (Z * Z * Q * Z) :=
  map (fun row => (userId row, r_movieId row, rating row, epoch_seconds (timestamp row))) ratings.

Definition insert_ratings (ratings : list RatingRecord) (batch_size : nat) : DB Store nat :=
  let rows := rating_rows ratings in
  run_insert sql_insert_rating rows batch_size.

Definition detail_rows (movie_details : list DetailRecord) : list (Z * Detail) :=
  map (fun detail => (d_movieId detail, d_fields detail)) movie_details.

Definition insert_movie_details (movie_details : list DetailRecord) (batch_size : nat) : DB Store nat :=
  let rows := detail_rows movie_details in
  run_insert sql_replace_movie_detail rows batch_size.

(** The five loads in the order [etl.main] runs them; an exception ends
    the run. *)
Record RecordSet : Type := {
  rs_movies : list MovieRecord;
  rs_genres : list string;
  rs_movie_genres : list MovieGenreRecord;
  rs_ratings : list RatingRecord;
  rs_movie_details : list DetailRecord
}.

Definition then_load {A B : Type} (m : DB Store A) (k : A -> DB Store B) : DB Store B :=
  fun c =>
    match m c with
    | (c', Return a) => k a c'
    | (c', Raise e) => (c', Raise e)
    end.

Definition load_all (rs : RecordSet) (batch_size : nat) : DB Store (nat * nat * nat * nat * nat) :=
  then_load (insert_movies (rs_movies rs) batch_size) (fun movie_rows =>
  then_load (insert_genres (rs_genres rs) batch_size) (fun genre_rows =>
  then_load (insert_movie_genres (rs_movie_genres rs) batch_size) (fun movie_genre_rows =>
  then_load (insert_ratings (rs_ratings rs) batch_size) (fun ratings_rows =>
  then_load (insert_movie_details (rs_movie_details rs) batch_size) (fun detail_rows =>
  fun c => (c, Return (movie_rows, genre_rows, movie_genre_rows, ratings_rows, detail_rows))))))).
End Load.

(** The reference behaviour the loaders are compared with: one statement
    applied to every row in order, from a given state, with no batching;
    [None] when some row fails. *)
Module LoadSpec.
Import Database.

Fixpoint apply_rows {Store Row : Type} (query : Statement Store Row)
    (rows : list Row) (s : Store) : option Store :=
  match rows with
  | [] => Some s
  | row :: rows' =>
      match query row s with
      | Return (s', _) => apply_rows query rows' s'
      | Raise _ => None
      end
  end.

(** A connection with no open transaction on the store [s]. *)
Definition connect {Store : Type} (s : Store) : Connection Store :=
  {| committed := s; pending := s; total_changes := 0 |}.
End LoadSpec.

(** A pipeline of load stages on the store alone: each stage gives the
    store it leaves behind and whether it succeeded; a failed stage ends
    the run. *)
Module Pipeline.
Definition Stage (Store : Type) : Type := Store -> Store * bool.

Fixpoint run_stages {Store : Type} (stages : list (Stage Store)) (s : Store) : Store * bool :=
  match stages with
  | [] => (s, true)
  | stage :: stages' =>
      match stage s with
      | (s', true) => run_stages stages' s'
      | (s', false) => (s', false)
      end
  end.

(** One loader as a stage: all rows written, or none. *)
Definition load_stage {Store Row : Type} (query : Database.Statement Store Row)
    (rows : Store -> list Row) : Stage Store :=
  fun s =>
    match LoadSpec.apply_rows query (rows s) s with
    | Some s' => (s', true)
    | None => (s, false)
    end.




(** Per table: a row's key is in the table, and a later store differs
    from an earlier one in that table only, which has kept its keys. *)
Section Presence.
Import Schema.





End Presence.

(** The five loaders as stages, in the order of [Load.load_all]. *)
Definition load_stages (rs : Load.RecordSet) : list (Stage Schema.Store) :=
  [ load_stage Schema.sql_insert_movie (fun _ => Load.movie_rows (Load.rs_movies rs));
    load_stage Schema.sql_insert_genre (fun _ => Load.rs_genres rs);
    load_stage Schema.sql_insert_movie_genre
      (fun s => Load.movie_genre_rows (Schema.genres s) (Load.rs_movie_genres rs));
    load_stage Schema.sql_insert_rating (fun _ => Load.rating_rows (Load.rs_ratings rs));
    load_stage Schema.sql_replace_movie_detail (fun _ => Load.detail_rows (Load.rs_movie_details rs)) ].

Definition succeeded {A : Type} (o : Outcome A) : bool :=
  match o with Return _ => true | Raise _ => false end.

(** A computation on a connection follows a stage: from a connection
    with no open transaction it ends with none, at the stage's store. *)
Definition follows {A : Type} (m : Database.DB Schema.Store A) (stage : Stage Schema.Store) : Prop :=
  forall c, Database.pending c = Database.committed c ->
    Database.pending (m c).1 = Database.committed (m c).1 /\
    Database.committed (m c).1 = (stage (Database.committed c)).1 /\
    succeeded (m c).2 = (stage (Database.committed c)).2.
End Pipeline.

(** ** [src/api_client.py]: the enrichment client *)

Module ApiClient.
(** A JSON object, as [response.json()] returns it. *)
Abbreviation Payload := (gmap string string).

(** What one [session.get] ends in: a [requests.RequestException]
    (timeout, non-2xx status, malformed body), or a decoded body. *)
Inductive Response : Type :=
| TransportError
| Body (payload : Payload).

(** What the client does to the world, in the order it does it. *)
Inductive Event : Type :=
| Request (imdb_id : string)
| Backoff (delay : Q)
| RateLimit (delay : Q)
| Persist (file : gmap string Payload).

(** An [OMDbClient] with the world it acts on: the number of requests
    sent so far and the events so far. *)
Record Client : Type := {
  max_retries : Z;
  rate_limit_delay : Q;
  _cache : gmap string Payload;
  requests : nat;
  events : list Event
}.

Definition emit (e : Event) (self : Client) : Client :=
  {| max_retries := max_retries self; rate_limit_delay := rate_limit_delay self;
     _cache := _cache self; requests := requests self;
     events := events self ++ [e] |}.

Definition sent (self : Client) : Client :=
  {| max_retries := max_retries self; rate_limit_delay := rate_limit_delay self;
     _cache := _cache self; requests := S (requests self);
     events := events self |}.

Definition cache_store (imdb_id : string) (payload : Payload) (self : Client) : Client :=
  {| max_retries := max_retries self; rate_limit_delay := rate_limit_delay self;
     _cache := <[imdb_id := payload]> (_cache self); requests := requests self;
     events := events self |}.

(** [self.cache_file.write_text(json.dumps(self._cache))]. *)
Definition _persist_cache (self : Client) : Client :=
  emit (Persist (_cache self)) self.

(** [min(5, 0.5 * 2 ** (attempt - 1))], in seconds, as an exact rational.
    The delays are 1/2, 1, 2, 4 and then 5: values that binary floating
    point holds exactly. *)
Definition backoff_delay (attempt : Z) : Q :=
  Qmin 5 ((1 # 2) * Qpower 2 (attempt - 1)).

Definition _backoff (attempt : Z) (self : Client) : Client :=
  emit (Backoff (backoff_delay attempt)) self.

(** The marker cached for a structured negative answer. *)
Definition negative (reason : string) : Payload :=
  {[ "Response" := "False"; "Error" := reason ]}.

Definition is_negative (payload : Payload) : bool :=
  bool_decide (payload !! "Response" = Some "False").

(** What a decoded body is cached as: the marker for a negative answer,
    the payload itself otherwise. *)
Definition cached_entry (payload : Payload) : Payload :=
  if is_negative payload
  then negative (default "unknown error" (payload !! "Error"))
  else payload.

Section Transport.
(** The service: the answer to the [n]-th request of the run, for the
    id it asks about. *)
Variable transport : nat -> string -> Response.

(** [session.get(...)], [raise_for_status()], [response.json()]. *)
Definition get (imdb_id : string) (self : Client) : Response * Client :=
  (transport (requests self) imdb_id, sent (emit (Request imdb_id) self)).

(** The [for attempt in range(1, self.max_retries + 1)] loop, over the
    attempts still to make. *)
Fixpoint attempt_loop (imdb_id : string) (attempts : list Z) (self : Client)
    : option Payload * Client :=
  match attempts with
  | [] => (None, self)
  | attempt :: attempts' =>
      match get imdb_id self with
      | (TransportError, self) =>
          attempt_loop imdb_id attempts' (_backoff attempt self)
      | (Body payload, self) =>
          if is_negative payload then
            let reason := default "unknown error" (payload !! "Error") in
            (None, _persist_cache (cache_store imdb_id (negative reason) self))
          else
            (Some payload,
             emit (RateLimit (rate_limit_delay self))
               (_persist_cache (cache_store imdb_id payload self)))
      end
  end.

Definition fetch_movie (imdb_id : string) (self : Client) : option Payload * Client :=
  match _cache self !! imdb_id with
  | Some payload => (Some payload, self)
  | None => attempt_loop imdb_id (seqZ 1 (max_retries self)) self
  end.

(** Python truth of [fetch_movie]'s result: [None] and the empty dict
    are false. *)
Definition truthy (payload : option Payload) : bool :=
  match payload with
  | Some p => negb (bool_decide (p = ∅))
  | None => false
  end.

(** The loop of [fetch_bulk], with its [counter] and [result]. *)
Fixpoint bulk_loop (imdb_ids : list string) (limit : option Z) (counter : Z)
    (result : gmap string Payload) (self : Client) : gmap string Payload * Client :=
  match imdb_ids with
  | [] => (result, self)
  | imdb_id :: imdb_ids' =>
      if match limit with Some l => bool_decide (l <= counter) | None => false end
      then (result, self)
      else if bool_decide (imdb_id = "")
      then bulk_loop imdb_ids' limit counter result self
      else
        let '(payload, self) := fetch_movie imdb_id self in
        let result :=
          match payload with
          | Some p => if truthy payload then <[imdb_id := p]> result else result
          | None => result
          end in
        bulk_loop imdb_ids' limit (counter + 1) result self
  end.

Definition fetch_bulk (imdb_ids : list string) (limit : option Z) (self : Client)
    : gmap string Payload * Client :=
  bulk_loop imdb_ids limit 0 ∅ self.
End Transport.


(** A client as [OMDbClient(...)] builds it from a loaded cache, in a
    fresh world. *)
Definition new_client (retries : Z) (delay : Q) (cache : gmap string Payload) : Client :=
  {| max_retries := retries; rate_limit_delay := delay; _cache := cache;
     requests := 0; events := [] |}.
End ApiClient.

(** ** [src/api_client.py]: the cache file *)

Module CacheFile.
Import ApiClient.

(** The cache file: absent, unreadable as JSON, or holding a cache. *)
Inductive File : Type :=
| Absent
| Corrupt
| Holds (cache : gmap string Payload).

(** [_load_cache]: the content of a readable file, the empty cache
    otherwise. *)
Definition _load_cache (cache_file : File) : gmap string Payload :=
  match cache_file with
  | Holds cache => cache
  | Absent | Corrupt => ∅
  end.

(** The file after some events of the client: what the last
    [_persist_cache] among them wrote, the file as it was when there is
    none. *)
Definition written (cache_file : File) (evs : list Event) : File :=
  foldl (fun file e => match e with Persist cache => Holds cache | _ => file end)
        cache_file evs.

(** [OMDbClient(...)] on a cache file, in a fresh world. *)
Definition open_client (retries : Z) (delay : Q) (cache_file : File) : Client :=
  new_client retries delay (_load_cache cache_file).
End CacheFile.

(** ** Python strings and the [re] patterns the sources use *)

Module Text.
Definition chars (s : string) : list ascii := list_ascii_of_string s.
Definition str (cs : list ascii) : string := string_of_list_ascii cs.

Definition code (c : ascii) : nat := nat_of_ascii c.

(** [str.isspace] on one character, which is also the class [\s]: the
    code points 9-13, 28-32, 0x85 and 0xA0 (strings are sequences of code
    points below 256 here). *)
Definition isspace (c : ascii) : bool :=
  let n := code c in
  ((9 <=? n) && (n <=? 13) || (28 <=? n) && (n <=? 32) || (n =? 133) || (n =? 160))%nat.

(** The class [\d] below code point 256: the digits 0-9. *)
Definition isdigit (c : ascii) : bool :=
  let n := code c in ((48 <=? n) && (n <=? 57))%nat.

Fixpoint lstrip (cs : list ascii) : list ascii :=
  match cs with
  | c :: cs' => if isspace c then lstrip cs' else cs
  | [] => []
  end.

Fixpoint rstrip (cs : list ascii) : list ascii :=
  match cs with
  | c :: cs' =>
      match rstrip cs' with
      | [] => if isspace c then [] else [c]
      | kept => c :: kept
      end
  | [] => []
  end.

(** [s.strip()]. *)
Definition strip (cs : list ascii) : list ascii := rstrip (lstrip cs).

(** [int(s)] for a string of ASCII digits; [None] stands for the
    [ValueError] on anything else. *)
Definition digit_value (c : ascii) : Z := Z.of_nat (code c) - 48.

Definition digits_value (acc : Z) (cs : list ascii) : Z :=
  foldl (fun acc c => 10 * acc + digit_value c) acc cs.

Definition int_of_digits (cs : list ascii) : option Z :=
  match cs with
  | [] => None
  | _ => if forallb isdigit cs then Some (digits_value 0 cs) else None
  end.

(** [s.zfill(width)]: zeros on the left up to [width], after a leading
    sign; a string at least [width] long is returned as it is. *)
Definition zfill (width : nat) (s : string) : string :=
  let n := String.length s in
  if (width <=? n)%nat then s
  else
    let zeros := str (replicate (width - n) "0"%char) in
    match s with
    | String c rest =>
        if (Ascii.eqb c "+" || Ascii.eqb c "-")%bool
        then String c (zeros +:+ rest)
        else zeros +:+ s
    | EmptyString => zeros
    end.
End Text.

Module Re.
Import Text.

(** The patterns of the sources are concatenations of these atoms: one
    literal character, one character of a class, a greedy [*] of a
    class, and the anchor [$].  [\d{4}] is four [Class] atoms, [\s{2,}]
    is two [Class] atoms and a [Star]. *)
Inductive atom : Type :=
| Lit (c : ascii)
| Class (p : ascii -> bool)
| Star (p : ascii -> bool)
| Dollar.

(** A match of the whole pattern at the start of the text, as the
    backtracking matcher finds it: the text left after the match. *)
Fixpoint match_here (pattern : list atom) (text : list ascii) : option (list ascii) :=
  match pattern with
  | [] => Some text
  | Lit c :: pattern' =>
      match text with
      | c' :: text' => if Ascii.eqb c c' then match_here pattern' text' else None
      | [] => None
      end
  | Class p :: pattern' =>
      match text with
      | c' :: text' => if p c' then match_here pattern' text' else None
      | [] => None
      end
  | Star p :: pattern' =>
      (fix star (text : list ascii) : option (list ascii) :=
         match text with
         | c' :: text' =>
             if p c'
             then match star text' with
                  | Some rest => Some rest
                  | None => match_here pattern' text
                  end
             else match_here pattern' text
         | [] => match_here pattern' []
         end) text
  | Dollar :: pattern' =>
      match text with
      | [] => match_here pattern' []
      | [c'] => if Ascii.eqb c' "010" then match_here pattern' text else None
      | _ => None
      end
  end.

(** [re.search]: the leftmost match, as the text before it, the matched
    text and the text after it. *)
Fixpoint search (pattern : list atom) (text : list ascii)
    : option (list ascii * list ascii * list ascii) :=
  match match_here pattern text with
  | Some rest => Some ([], take (length text - length rest) text, rest)
  | None =>
      match text with
      | [] => None
      | c :: text' =>
          match search pattern text' with
          | Some (before, matched, after) => Some (c :: before, matched, after)
          | None => None
          end
      end
  end.

(** [re.sub(pattern, repl, text)]: every non-overlapping match, leftmost
    first, replaced by [repl].  An empty match is replaced and the scan
    moves on by one character. *)
Equations? sub (pattern : list atom) (repl : list ascii) (text : list ascii)
    : list ascii by wf (length text) lt :=
sub pattern repl text with inspect (match_here pattern text) := {
  | @exist (Some rest) _ with inspect (length rest <? length text)%nat := {
      | @exist true _ => repl ++ sub pattern repl rest;
      | @exist false _ with text := {
          | [] => repl;
          | c :: text' => repl ++ c :: sub pattern repl text' } };
  | @exist None _ with text := {
      | [] => [];
      | c :: text' => c :: sub pattern repl text' } }.
Proof.
  all: try (simpl; lia).
  by apply Nat.ltb_lt.
Qed.

(** [\s*\(\d{4}\)\s*$], [\((\d{4})\)\s*$] and [\s{2,}]. *)
Definition year_suffix : list atom :=
  [Star isspace; Lit "("; Class isdigit; Class isdigit; Class isdigit; Class isdigit;
   Lit ")"; Star isspace; Dollar].

Definition year_group : list atom :=
  [Lit "("; Class isdigit; Class isdigit; Class isdigit; Class isdigit;
   Lit ")"; Star isspace; Dollar].

Definition space_run : list atom := [Class isspace; Class isspace; Star isspace].
End Re.

(** ** [src/extract.py] and [src/transform.py]: titles and external ids *)

Module Titles.
Import Text Re.

(** [_extract_year] on a [str]: group 1 of the match is the four
    characters after the opening parenthesis. *)
Definition _extract_year (title : string) : option Z :=
  match search year_group (strip (chars title)) with
  | Some (_, matched, _) => int_of_digits (take 4 (drop 1 matched))
  | None => None
  end.

(** [_clean_title] on a [str]. *)
Definition _clean_title (title : string) : string :=
  let normalized := strip (sub year_suffix [] (chars title)) in
  str (sub space_run [" "%char] normalized).

(** Whitespace normalization, as [_clean_title] does it: the ends
    stripped, every run of two or more whitespace characters replaced by
    one space. *)
Definition normalize_whitespace (s : string) : string :=
  str (sub space_run [" "%char] (strip (chars s))).

(** What whitespace normalization leaves: the characters that are not
    whitespace, in their order; no whitespace at either end; no two
    whitespace characters in a row. *)
Definition non_space (cs : list ascii) : list ascii :=
  List.filter (fun c => negb (isspace c)) cs.

Definition starts_with_space (cs : list ascii) : bool :=
  match cs with
  | c :: _ => isspace c
  | [] => false
  end.

Definition ends_with_space (cs : list ascii) : bool :=
  match last cs with
  | Some c => isspace c
  | None => false
  end.

Fixpoint adjacent_spaces (cs : list ascii) : bool :=
  match cs with
  | a :: cs' => (isspace a && starts_with_space cs') || adjacent_spaces cs'
  | [] => false
  end.


(** A text that is a parenthesized four-digit year and then whitespace
    only. *)
Definition year_tail (text : list ascii) : bool :=
  match text with
  | open :: d1 :: d2 :: d3 :: d4 :: close :: trail =>
      Ascii.eqb "(" open && isdigit d1 && isdigit d2 && isdigit d3 && isdigit d4
      && Ascii.eqb ")" close && forallb isspace trail
  | _ => false
  end.

(** The text up to the first place from which only whitespace and a
    year tail follow. *)
Fixpoint cut_year (text : list ascii) : list ascii :=
  match text with
  | [] => []
  | c :: text' => if year_tail (lstrip text) then [] else c :: cut_year text'
  end.

(** A title ends in a parenthesized four-digit year, trailing whitespace
    aside. *)
Definition has_year_suffix (title : string) : bool :=
  match lstrip (rev (chars title)) with
  | close :: d4 :: d3 :: d2 :: d1 :: open :: _ =>
      Ascii.eqb close ")" && isdigit d4 && isdigit d3 && isdigit d2 && isdigit d1
      && Ascii.eqb open "("
  | _ => false
  end.
End Titles.

(** ** [src/extract.py]: external ids *)

(** The values a table cell holds: a missing value ([None], or the float
    NaN), a finite float, an integer, a string, an instant (nanoseconds
    since the epoch), or the missing instant [NaT]. *)
Inductive Cell : Type :=
| PyNone
| NaN
| PyFloat (q : Q)
| PyInt (z : Z)
| PyStr (s : string)
| Timestamp (ns : Z)
| NaT.

Module Ids.
Import Text.

(** [pd.isna]. *)
Definition isna (v : Cell) : bool :=
  match v with
  | PyNone | NaN | NaT => true
  | _ => false
  end.

(** [int(x)] on a finite float: truncation towards zero. *)
Definition int_of_float (q : Q) : Z := Qnum q ÷ Zpos (Qden q).

(** [str(int)]: the decimal numeral, with [-] for a negative number. *)
Definition str_of_int (z : Z) : string := pretty z.

(** [str(int(imdb_id)) if isinstance(imdb_id, float) else str(imdb_id)];
    the ids of a links table are floats, integers or strings. *)
Definition imdb_str (imdb_id : Cell) : string :=
  match imdb_id with
  | PyFloat q => str_of_int (int_of_float q)
  | PyInt z => str_of_int z
  | PyStr s => s
  | _ => ""
  end.

Definition _format_imdb_id (imdb_id : Cell) : option string :=
  if isna imdb_id then None
  else
    let imdb_str := imdb_str imdb_id in
    if bool_decide (imdb_str = "") then None
    else Some ("tt" +:+ zfill 7 imdb_str).

(** The integer a numeric id stands for. *)
Definition numeric_value (imdb_id : Cell) : option Z :=
  match imdb_id with
  | PyFloat q => Some (int_of_float q)
  | PyInt z => Some z
  | _ => None
  end.

End Ids.

(** ** The part of pandas the sources use *)

Module Pandas.
(** A table: the column names, and the rows, each with one cell per
    column. *)
Record DataFrame : Type := {
  columns : list string;
  rows : list (list Cell)
}.

(** [pd.DataFrame()]: no columns, no rows. *)
Definition empty_frame : DataFrame := {| columns := []; rows := [] |}.

(** [df.empty] and [len(df)]. *)
Definition is_empty (df : DataFrame) : bool :=
  match columns df, rows df with
  | [], _ | _, [] => true
  | _, _ => false
  end.

Definition len (df : DataFrame) : nat := length (rows df).

Fixpoint index_of (name : string) (names : list string) : option nat :=
  match names with
  | [] => None
  | n :: names' => if String.eqb name n then Some 0%nat else S <$> index_of name names'
  end.

Definition cell_at (i : nat) (row : list Cell) : Cell := default NaN (row !! i).

(** [df[name]]: the column, or [KeyError]. *)
Definition getitem (df : DataFrame) (name : string) : Outcome (list Cell) :=
  match index_of name (columns df) with
  | Some i => Return (cell_at i <$> rows df)
  | None => Raise (KeyError name)
  end.

(** The positions of several columns, or [KeyError] for the first name
    that is not a column. *)
Fixpoint indices_of (names : list string) (cols : list string) : Outcome (list nat) :=
  match names with
  | [] => Return []
  | name :: names' =>
      match index_of name cols with
      | Some i =>
          match indices_of names' cols with
          | Return ixs => Return (i :: ixs)
          | Raise e => Raise e
          end
      | None => Raise (KeyError name)
      end
  end.

(** [df[[name1, name2, ...]]]. *)
Definition select (df : DataFrame) (names : list string) : Outcome DataFrame :=
  match indices_of names (columns df) with
  | Return ixs =>
      Return {| columns := names;
                rows := (fun row => (fun i => cell_at i row) <$> ixs) <$> rows df |}
  | Raise e => Raise e
  end.

(** [df[name] = values]: the column replaced, or added as the last
    one. *)
Definition setitem (df : DataFrame) (name : string) (values : list Cell) : DataFrame :=
  match index_of name (columns df) with
  | Some i =>
      {| columns := columns df;
         rows := zip_with (fun row v => <[i := v]> row) (rows df) values |}
  | None =>
      {| columns := columns df ++ [name];
         rows := zip_with (fun row v => row ++ [v]) (rows df) values |}
  end.

(** Equality of two cells as keys: numbers by value, missing values
    equal to themselves. *)
Definition cell_eqb (a b : Cell) : bool :=
  match a, b with
  | PyNone, PyNone | NaN, NaN | NaT, NaT => true
  | PyInt x, PyInt y => Z.eqb x y
  | PyFloat x, PyFloat y => Qeq_bool x y
  | PyInt x, PyFloat y | PyFloat y, PyInt x => Qeq_bool (inject_Z x) y
  | PyStr x, PyStr y => String.eqb x y
  | Timestamp x, Timestamp y => Z.eqb x y
  | _, _ => false
  end.

Fixpoint key_eqb (a b : list Cell) : bool :=
  match a, b with
  | [], [] => true
  | x :: a', y :: b' => cell_eqb x y && key_eqb a' b'
  | _, _ => false
  end.

Fixpoint has_duplicates (keys : list (list Cell)) : bool :=
  match keys with
  | [] => false
  | k :: keys' => existsb (key_eqb k) keys' || has_duplicates keys'
  end.

(** [left.merge(right, on=key, how='left', validate='one_to_one')]: a
    missing key column is a [KeyError]; keys that repeat on either side
    are a [MergeError]; a left row without a partner gets NaN in the
    columns of the right table. *)
Definition merge_left_one_to_one (left right : DataFrame) (key : string) : Outcome DataFrame :=
  match index_of key (columns left), index_of key (columns right) with
  | Some i, Some j =>
      let others := filter (fun n => n ≠ key) (columns right) in
      match indices_of others (columns right) with
      | Raise e => Raise e
      | Return js =>
          if has_duplicates ((fun row => [cell_at i row]) <$> rows left)
             || has_duplicates ((fun row => [cell_at j row]) <$> rows right)
          then Raise (MergeError "Merge keys are not unique; not a one-to-one merge")
          else
            Return
              {| columns := columns left ++ others;
                 rows :=
                   (fun row =>
                      match List.find (fun r => cell_eqb (cell_at i row) (cell_at j r)) (rows right) with
                      | Some r => row ++ ((fun k => cell_at k r) <$> js)
                      | None => row ++ ((fun _ => NaN) <$> js)
                      end) <$> rows left |}
      end
  | _, _ => Raise (KeyError key)
  end.

(** [df.drop_duplicates(subset=names)]: of the rows that agree on the
    subset, the first is kept. *)
Fixpoint keep_first (ixs : list nat) (seen : list (list Cell)) (rs : list (list Cell))
    : list (list Cell) :=
  match rs with
  | [] => []
  | row :: rs' =>
      let key := (fun i => cell_at i row) <$> ixs in
      if existsb (key_eqb key) seen then keep_first ixs seen rs'
      else row :: keep_first ixs (key :: seen) rs'
  end.

Definition drop_duplicates (df : DataFrame) (subset : list string) : Outcome DataFrame :=
  match indices_of subset (columns df) with
  | Return ixs => Return {| columns := columns df; rows := keep_first ixs [] (rows df) |}
  | Raise e => Raise e
  end.

Definition isna (v : Cell) : bool :=
  match v with
  | PyNone | NaN | NaT => true
  | _ => false
  end.

(** [df.dropna(subset=names)]. *)
Definition dropna (df : DataFrame) (subset : list string) : Outcome DataFrame :=
  match indices_of subset (columns df) with
  | Return ixs =>
      Return {| columns := columns df;
                rows := List.filter (fun row => forallb (fun i => negb (isna (cell_at i row))) ixs)
                          (rows df) |}
  | Raise e => Raise e
  end.

(** [df[mask]] for a boolean column [mask]. *)
Definition where_true (df : DataFrame) (mask : list bool) : DataFrame :=
  {| columns := columns df;
     rows := fst <$> List.filter snd (zip (rows df) mask) |}.

Section Conversions.
(** The numeral parser of [pd.to_numeric] and the conversion of
    [pd.to_datetime(unit='s')], from seconds to an instant in
    nanoseconds or to nothing when out of range. *)
Variable parse_number : string -> option Q.
Variable seconds_to_instant : Q -> option Z.

(** [pd.to_numeric(column, errors='coerce')] on one cell. *)
Definition to_numeric (v : Cell) : Cell :=
  match v with
  | PyInt z => PyInt z
  | PyFloat q => PyFloat q
  | PyStr s => match parse_number s with Some q => PyFloat q | None => NaN end
  | _ => NaN
  end.

(** [pd.to_datetime(column, unit='s', origin='unix', errors='coerce')]
    on one numeric cell. *)
Definition to_datetime (v : Cell) : Cell :=
  let instant q := match seconds_to_instant q with Some ns => Timestamp ns | None => NaT end in
  match v with
  | PyInt z => instant (inject_Z z)
  | PyFloat q => instant q
  | _ => NaT
  end.
End Conversions.

(** [column >= bound] and [column <= bound] on one cell; a missing value
    compares false. *)
Definition ge (v : Cell) (bound : Q) : bool :=
  match v with
  | PyInt z => Qle_bool bound (inject_Z z)
  | PyFloat q => Qle_bool bound q
  | _ => false
  end.

Definition le (v : Cell) (bound : Q) : bool :=
  match v with
  | PyInt z => Qle_bool (inject_Z z) bound
  | PyFloat q => Qle_bool q bound
  | _ => false
  end.
End Pandas.

(** ** [src/extract.py]: reading and joining the tables *)

Module Extract.
Import Pandas.

(** The three source files: the table each parses to, or [None] for a
    file that is not there. *)
Record Files : Type := {
  MOVIES_CSV : option DataFrame;
  RATINGS_CSV : option DataFrame;
  LINKS_CSV : option DataFrame
}.

(** [_read_csv]: [FileNotFoundError] becomes the empty frame. *)
Definition _read_csv (file : option DataFrame) : DataFrame :=
  match file with
  | Some df => df
  | None => empty_frame
  end.

(** [_extract_year] and [_format_imdb_id] on a cell of a column. *)
Definition _extract_year (title : Cell) : Cell :=
  match title with
  | PyStr s => match Titles._extract_year s with Some y => PyInt y | None => NaN end
  | _ => NaN
  end.

Definition _format_imdb_id (imdb_id : Cell) : Cell :=
  match Ids._format_imdb_id imdb_id with
  | Some s => PyStr s
  | None => PyNone
  end.

Record Extracted : Type := { movies : DataFrame; ratings : DataFrame }.

Definition extract_csv_data (files : Files) : Outcome Extracted :=
  let movies := _read_csv (MOVIES_CSV files) in
  let ratings := _read_csv (RATINGS_CSV files) in
  let links := _read_csv (LINKS_CSV files) in
  links_ids ← select links ["movieId"; "imdbId"];
  movie_link ← merge_left_one_to_one movies links_ids "movieId";
  titles ← getitem movie_link "title";
  let movie_link := setitem movie_link "year" (_extract_year <$> titles) in
  imdb_ids ← getitem movie_link "imdbId";
  let movie_link := setitem movie_link "imdbId" (_format_imdb_id <$> imdb_ids) in
  Return {| movies := movie_link; ratings := ratings |}.
End Extract.

(** ** [src/transform.py]: validation of the ratings *)

Module Transform.
Import Pandas.

Section Validation.
Variable parse_number : string -> option Q.
Variable seconds_to_instant : Q -> option Z.

Definition _validate_ratings_dataframe (ratings : DataFrame) : Outcome DataFrame :=
  ratings ← drop_duplicates ratings ["userId"; "movieId"; "timestamp"];
  rating ← getitem ratings "rating";
  let ratings := setitem ratings "rating" (to_numeric parse_number <$> rating) in
  rating ← getitem ratings "rating";
  let ratings := where_true ratings ((fun v => ge v (1 # 2) && le v 5) <$> rating) in
  timestamp ← getitem ratings "timestamp";
  let ratings := setitem ratings "timestamp" (to_numeric parse_number <$> timestamp) in
  ratings ← dropna ratings ["rating"; "timestamp"];
  timestamp ← getitem ratings "timestamp";
  let ratings := setitem ratings "timestamp" (to_datetime seconds_to_instant <$> timestamp) in
  dropna ratings ["timestamp"].
End Validation.
End Transform.

(** ** [src/transform.py]: genres *)

Module Genres.
Import Text.

(** [str.lower] on one character below code point 256: the letters A-Z
    and the accented capitals 0xC0-0xDE, the sign 0xD7 aside, move up by
    32. *)
Definition lower_char (c : ascii) : ascii :=
  let n := code c in
  if ((65 <=? n) && (n <=? 90) || (192 <=? n) && (n <=? 222) && negb (n =? 215))%nat
  then ascii_of_nat (n + 32)
  else c.

Definition lower (cs : list ascii) : list ascii := lower_char <$> cs.

(** [s.split(sep)] for a separator of one character: the pieces between
    the separators, empty pieces included. *)
Fixpoint split (sep : ascii) (cs : list ascii) : list (list ascii) :=
  match cs with
  | [] => [[]]
  | c :: cs' =>
      if Ascii.eqb c sep then [] :: split sep cs'
      else
        match split sep cs' with
        | piece :: pieces => (c :: piece) :: pieces
        | [] => [[c]]
        end
  end.

(** [_parse_genres] on a cell of the [genres] column. *)
Definition _parse_genres (genres : Cell) : list string :=
  match genres with
  | PyStr s =>
      if bool_decide (lower (strip (chars s)) = chars "(no genres listed)") then []
      else
        omap (fun genre =>
                if bool_decide (strip genre = []) then None else Some (str (strip genre)))
             (split "|" (chars s))
  | _ => []
  end.

(** The order of [str] values: by code point, a proper prefix first. *)
Definition str_le (a b : string) : Prop := String.leb a b = true.

#[global] Instance str_le_dec : RelDecision str_le :=
  fun a b => decide (String.leb a b = true).

(** [build_genres_lookup] on the column [genresList] of the cleaned
    movies: the set of the tags of all rows, sorted. *)
Definition build_genres_lookup (genresList : list (list string)) : list string :=
  let unique_genres := merge_sort str_le (remove_dups (concat genresList)) in
  unique_genres.

(** [map_movie_genres] on the columns [movieId] and [genresList]: one
    record per movie and tag, in the order of the rows and of the tags
    of a row. *)
Definition map_movie_genres (movieId : list Z) (genresList : list (list string))
    : list Load.MovieGenreRecord :=
  concat (zip_with
            (fun movie_id genres =>
               (fun genre => {| Load.mg_movieId := movie_id; Load.genreName := genre |})
                 <$> genres)
            movieId genresList).
End Genres.

(** ** [src/transform.py]: details from the payloads *)

Module Details.
Import ApiClient.

Section Json.
(** [json.dumps(payload, ensure_ascii=False)]. *)
Variable json_dumps : Payload -> string.

(** [dict(zip(movies['imdbId'], movies['movieId']))]: a later row with
    the same id replaces an earlier one; absent ids share the key
    [None]. *)
Definition movie_id_lookup (imdbId : list (option string)) (movieId : list Z)
    : gmap (option string) Z :=
  foldl (fun lookup row => <[row.1 := row.2]> lookup) ∅ (zip imdbId movieId).

Definition detail_of (movie_id : Z) (payload : Payload) : Load.DetailRecord :=
  {| Load.d_movieId := movie_id;
     Load.d_fields :=
       {| Schema.director := payload !! "Director";
          Schema.plot := payload !! "Plot";
          Schema.boxOffice := payload !! "BoxOffice";
          Schema.imdbRating := payload !! "imdbRating";
          Schema.runtime := payload !! "Runtime";
          Schema.actors := payload !! "Actors";
          Schema.country := payload !! "Country";
          Schema.language := payload !! "Language";
          Schema.awards := payload !! "Awards";
          Schema.apiResponseJson := Some (json_dumps payload) |} |}.

(** [build_movie_details] on the columns [imdbId] and [movieId] of the
    cleaned movies and the items of [api_data] in their order. *)
Definition build_movie_details (imdbId : list (option string)) (movieId : list Z)
    (api_data : list (string * Payload)) : list Load.DetailRecord :=
  let movie_id_lookup := movie_id_lookup imdbId movieId in
  omap (fun '(imdb_id, payload) =>
          match movie_id_lookup !! Some imdb_id with
          | None => None
          | Some movie_id =>
              if Z.eqb movie_id 0 then None
              else if is_negative payload then None
              else Some (detail_of movie_id payload)
          end) api_data.
End Json.
End Details.

(** ** [src/transform.py] and [src/etl.py]: from the cleaned tables to the loads *)

Module Transformed.
Import ApiClient.


Section Json.
Variable json_dumps : Payload -> string.

End Json.
End Transformed.

(** ** [src/etl.py]: the orchestrator's own fetch loop and integrity check *)

Module Etl.
Import ApiClient.

Section Transport.
Variable transport : nat -> string -> Response.

(** The loop of [_fetch_api_payloads] over [enumerate(imdb_ids)]: [limit]
    counts positions, a limit of [None] or 0 is no limit, and every id is
    fetched, the empty one too. *)
Fixpoint payloads_loop (imdb_ids : list string) (limit : option Z) (idx : Z)
    (payloads : gmap string Payload) (client : Client) : gmap string Payload * Client :=
  match imdb_ids with
  | [] => (payloads, client)
  | imdb_id :: imdb_ids' =>
      if match limit with
         | Some l => negb (Z.eqb l 0) && bool_decide (l <= idx)
         | None => false
         end
      then (payloads, client)
      else
        let '(payload, client) := fetch_movie transport imdb_id client in
        let payloads :=
          match payload with
          | Some p => if truthy payload then <[imdb_id := p]> payloads else payloads
          | None => payloads
          end in
        payloads_loop imdb_ids' limit (idx + 1) payloads client
  end.

Definition _fetch_api_payloads (imdb_ids : list string) (client : Client) (limit : option Z)
    : gmap string Payload * Client :=
  payloads_loop imdb_ids limit 0 ∅ client.
End Transport.

(** [PRAGMA foreign_key_check]: the rows of the child tables whose parent
    row is missing, as (table, key) pairs. *)
Inductive Violation : Type :=
| OrphanMovieGenre (movieId genreId : Z)
| OrphanRating (userId movieId timestamp : Z)
| OrphanDetail (movieId : Z).

Definition foreign_key_check (s : Schema.Store) : list Violation :=
  ((fun '(m, g) => OrphanMovieGenre m g) <$>
     List.filter (fun '(m, g) => negb (Schema.movie_exists s m && Schema.genre_id_exists s g))
       (elements (Schema.movie_genres s))) ++
  ((fun '(u, m, t) => OrphanRating u m t) <$>
     List.filter (fun '(u, m, t) => negb (Schema.movie_exists s m))
       (fst <$> map_to_list (Schema.ratings s))) ++
  (OrphanDetail <$>
     List.filter (fun m => negb (Schema.movie_exists s m))
       (fst <$> map_to_list (Schema.movie_details s))).

(** No child row without its parent rows. *)
Definition referential_integrity (s : Schema.Store) : Prop :=
  (forall m g, (m, g) ∈ Schema.movie_genres s ->
     Schema.movie_exists s m = true /\ Schema.genre_id_exists s g = true) /\
  (forall u m t, is_Some (Schema.ratings s !! (u, m, t)) -> Schema.movie_exists s m = true) /\
  (forall m, is_Some (Schema.movie_details s !! m) -> Schema.movie_exists s m = true).

(** [_verify_connection]: whether the warning about violations is
    logged. *)
Definition _verify_connection (connection : Database.Connection Schema.Store) : bool :=
  match foreign_key_check (Database.pending connection) with
  | [] => false
  | _ => true
  end.
End Etl.

(** ** Concrete inputs used by the examples *)

(** A store holding one movie, and two ratings: one for that movie, one for
    a movie the store does not have. *)
Definition store_toy_story : Schema.Store :=
  Schema.set_movies Schema.empty_store
    {[ 1 := ("Toy Story", Some 1995, Some "tt0114709") ]}.

Definition rating_ok : Load.RatingRecord :=
  {| Load.userId := 1; Load.r_movieId := 1; Load.rating := 4 # 1;
     Load.timestamp := 964982703000000000 |}.

Definition rating_orphan : Load.RatingRecord :=
  {| Load.userId := 1; Load.r_movieId := 99; Load.rating := 3 # 1;
     Load.timestamp := 964982931000000000 |}.

Definition toy_story_detail : Schema.Detail :=
  {| Schema.director := Some "John Lasseter"; Schema.plot := None;
     Schema.boxOffice := None; Schema.imdbRating := Some "8.3";
     Schema.runtime := Some "81 min"; Schema.actors := None;
     Schema.country := None; Schema.language := None; Schema.awards := None;
     Schema.apiResponseJson := Some "{}" |}.

(** The record set of the design document's end-to-end scenario, with two
    ratings that share their key. *)
Definition toy_story_records : Load.RecordSet :=
  {| Load.rs_movies :=
       [ {| Load.movieId := 1; Load.cleanTitle := "Toy Story";
            Load.year := Some 1995; Load.imdbId := Some "tt0114709" |} ];
     Load.rs_genres := ["Adventure"; "Animation"; "Children"];
     Load.rs_movie_genres :=
       [ {| Load.mg_movieId := 1; Load.genreName := "Adventure" |};
         {| Load.mg_movieId := 1; Load.genreName := "Animation" |};
         {| Load.mg_movieId := 1; Load.genreName := "Children" |} ];
     Load.rs_ratings :=
       [ rating_ok;
         {| Load.userId := 1; Load.r_movieId := 1; Load.rating := 9 # 2;
            Load.timestamp := 964982703000000000 |};
         {| Load.userId := 2; Load.r_movieId := 1; Load.rating := 5 # 1;
            Load.timestamp := 964982931000000000 |} ];
     Load.rs_movie_details :=
       [ {| Load.d_movieId := 1; Load.d_fields := toy_story_detail |} ] |}.

(** A service that answers every request with a structured "not found". *)
Definition not_found_service : nat -> string -> ApiClient.Response :=
  fun _ _ => ApiClient.Body {[ "Response" := "False"; "Error" := "Movie not found!" ]}.

(** A service whose first two requests fail in transport and whose later
    requests succeed. *)
Definition toy_story_payload : gmap string string :=
  {[ "Title" := "Toy Story"; "Director" := "John Lasseter"; "Response" := "True" ]}.

Definition flaky_service : nat -> string -> ApiClient.Response :=
  fun n _ => if (n <? 2)%nat then ApiClient.TransportError else ApiClient.Body toy_story_payload.

(** The tables of the design document's end-to-end scenario. *)
Definition toy_story_movies : Pandas.DataFrame :=
  {| Pandas.columns := ["movieId"; "title"; "genres"];
     Pandas.rows := [[PyInt 1; PyStr "Toy Story (1995)"; PyStr "Adventure|Animation|Children"]] |}.

Definition toy_story_links : Pandas.DataFrame :=
  {| Pandas.columns := ["movieId"; "imdbId"; "tmdbId"];
     Pandas.rows := [[PyInt 1; PyInt 114709; PyFloat (862 # 1)]] |}.

(** A ratings file whose third row has a malformed timestamp, so that the
    timestamp column is read as text: the first two rows are the same
    rating event, the timestamp written once as [100] and once as
    [100.0]. *)
Definition ratings_with_text_timestamps : Pandas.DataFrame :=
  {| Pandas.columns := ["userId"; "movieId"; "rating"; "timestamp"];
     Pandas.rows :=
       [ [PyInt 1; PyInt 1; PyFloat (4 # 1); PyStr "100"];
         [PyInt 1; PyInt 1; PyFloat (9 # 2); PyStr "100.0"];
         [PyInt 2; PyInt 1; PyFloat (3 # 1); PyStr "abc"] ] |}.

(** A numeral parser for plain decimals ([digits] or [digits.digits]) and
    a conversion from seconds to nanoseconds within the 64-bit range. *)
Fixpoint split_point (cs : list ascii) : list ascii * option (list ascii) :=
  match cs with
  | [] => ([], None)
  | c :: cs' =>
      if Ascii.eqb c "." then ([], Some cs')
      else let '(whole, frac) := split_point cs' in (c :: whole, frac)
  end.

Definition parse_decimal (s : string) : option Q :=
  let '(whole, frac) := split_point (Text.chars s) in
  match Text.int_of_digits whole, frac with
  | Some w, None => Some (inject_Z w)
  | Some w, Some frac =>
      match Text.int_of_digits frac with
      | Some f => Some (Qred (inject_Z w + inject_Z f / inject_Z (10 ^ Z.of_nat (length frac))))
      | None => None
      end
  | None, _ => None
  end.

Definition nanoseconds (q : Q) : option Z :=
  let ns := Qfloor (q * inject_Z 1000000000) in
  if bool_decide (- 2 ^ 63 < ns < 2 ^ 63) then Some ns else None.

(** The ratings of the design document's scenario: a rating, a second
    rating with the key of the first, and a rating out of range. *)
Definition scenario_ratings : Pandas.DataFrame :=
  {| Pandas.columns := ["userId"; "movieId"; "rating"; "timestamp"];
     Pandas.rows :=
       [ [PyInt 1; PyInt 1; PyFloat (4 # 1); PyInt 964982703];
         [PyInt 1; PyInt 1; PyFloat (9 # 2); PyInt 964982703];
         [PyInt 1; PyInt 1; PyFloat (6 # 1); PyInt 964982931] ] |}.

(** A links table that lists the movie twice. *)
Definition duplicate_links : Pandas.DataFrame :=
  {| Pandas.columns := ["movieId"; "imdbId"; "tmdbId"];
     Pandas.rows := [[PyInt 1; PyInt 114709; PyFloat (862 # 1)];
                     [PyInt 1; PyInt 113497; PyFloat (8844 # 1)]] |}.


(** The store with Toy Story and one genre. *)
Definition store_with_genre : Schema.Store :=
  Schema.set_genres store_toy_story {[ "Adventure" := 1 ]} 1.

(** Two details for the same movie. *)
Definition toy_story_details_twice : list Load.DetailRecord :=
  [ {| Load.d_movieId := 1; Load.d_fields := toy_story_detail |};
    {| Load.d_movieId := 1; Load.d_fields := toy_story_detail |} ].

(** A serializer for payloads of plain text: the members in the order of
    the keys. *)
Definition double_quote : string := String (ascii_of_nat 34) EmptyString.

Definition dumps_plain (payload : gmap string string) : string :=
  "{" +:+ String.concat ", "
            ((fun member => double_quote +:+ member.1 +:+ double_quote +:+ ": "
                            +:+ double_quote +:+ member.2 +:+ double_quote)
               <$> map_to_list payload) +:+ "}".

(** The columns of the cleaned movie table of the scenario, and the
    payloads fetched for it: one found, one negative marker. *)
Definition toy_story_genres_list : list (list string) :=
  [Genres._parse_genres (PyStr "Adventure|Animation|Children")].

Definition toy_story_api_data : list (string * gmap string string) :=
  [ ("tt0114709", toy_story_payload);
    ("tt0000001", ApiClient.negative "Movie not found!") ].


(** * Properties *)

(** ** Chunking *)

Section ChunkingFacts.
Import Chunking.
Context {A : Type}.

Lemma _chunked_step (rows : list A) (b : nat) :
  _chunked rows b =
  match take b rows with
  | [] => []
  | chunk => chunk :: _chunked (drop b rows) b
  end.
Proof.
  funelim (_chunked rows b); unfold islice in *; simpl in *.
  - rewrite e. reflexivity.
  - rewrite E. reflexivity.
Qed.

Lemma _chunked_nil (b : nat) : _chunked (@nil A) b = [].
Proof. rewrite _chunked_step. by rewrite take_nil. Qed.

Lemma _chunked_zero (rows : list A) : _chunked rows 0 = [].
Proof. rewrite _chunked_step. by rewrite take_0. Qed.

Lemma _chunked_concat (rows : list A) (b : nat) :
  (1 <= b)%nat -> concat (_chunked rows b) = rows.
Proof.
  intros Hb. funelim (_chunked rows b); unfold islice in *; cbn [fst snd] in *.
  - destruct size; [lia|]. destruct iterable; [done|discriminate].
  - rewrite <- E. cbn [concat snd]. rewrite H by done. apply take_drop.
Qed.

Lemma _chunked_bounded (rows : list A) (b : nat) :
  Forall (fun chunk => chunk <> [] /\ (length chunk <= b)%nat) (_chunked rows b).
Proof.
  funelim (_chunked rows b); unfold islice in *; cbn [fst snd] in *.
  - constructor.
  - constructor; [|done]. split; [done|].
    rewrite <- E, length_take. lia.
Qed.

Lemma chunked_partitions_rows_aux (rows : list A) (b : nat) :
  (1 <= b)%nat ->
  concat (_chunked rows b) = rows /\
  Forall (fun chunk => chunk <> [] /\ (length chunk <= b)%nat) (_chunked rows b).
Proof.
  intros Hb. split; [by apply _chunked_concat | apply _chunked_bounded].
Qed.

(** C10: for a batch size [b >= 1] the chunks of [_chunked] are non-empty,
    have at most [b] rows each, and concatenated in order give back the
    input: every row is submitted exactly once, in the input order. *)
Theorem chunked_partitions_rows (rows : list A) (b : nat) :
  (1 <= b)%nat ->
  concat (_chunked rows b) = rows /\
  Forall (fun chunk => chunk <> [] /\ (length chunk <= b)%nat) (_chunked rows b).
Proof.
  apply chunked_partitions_rows_aux.
Qed.
End ChunkingFacts.

Lemma chunked_partitions_rows_witness :
  concat (Chunking._chunked [1; 2; 3; 4; 5] 2) = [1; 2; 3; 4; 5] /\
  Forall (fun chunk => chunk <> [] /\ (length chunk <= 2)%nat)
         (Chunking._chunked [1; 2; 3; 4; 5] 2).
Proof. apply (chunked_partitions_rows [1; 2; 3; 4; 5] 2). lia. Defined.

Example chunked_5_by_2 :
  Chunking._chunked [1; 2; 3; 4; 5] 2 = [[1; 2]; [3; 4]; [5]].
Proof. reflexivity. Qed.

(** ** Transactions around the chunks *)

Section TransactionFacts.
Import Chunking Database Schema Load LoadSpec.
Context {Store Row : Type} (query : Statement Store Row).

Lemma for_each_app {X : Type} (f : X -> DB Store unit) (xs ys : list X) (c : Connection Store) :
  for_each f (xs ++ ys) c =
  match for_each f xs c with
  | (c', Return _) => for_each f ys c'
  | (c', Raise e) => (c', Raise e)
  end.
Proof.
  revert c. induction xs as [|x xs IH]; intros c; simpl; [done|].
  destruct (f x c) as [c' [[]|e]]; [apply IH | done].
Qed.

Lemma executemany_app (xs ys : list Row) (c : Connection Store) :
  executemany query (xs ++ ys) c =
  match executemany query xs c with
  | (c', Return _) => executemany query ys c'
  | (c', Raise e) => (c', Raise e)
  end.
Proof. apply for_each_app. Qed.

(** Running the chunks one after the other is running all their rows. *)
Lemma for_each_chunks (chunks : list (list Row)) (c : Connection Store) :
  for_each (fun chunk => executemany query chunk) chunks c =
  executemany query (concat chunks) c.
Proof.
  revert c. induction chunks as [|chunk chunks IH]; intros c; [done|].
  cbn [for_each concat]. rewrite executemany_app.
  destruct (executemany query chunk c) as [c' [[]|e]]; [apply IH | done].
Qed.

(** [executemany] against the pure reference. *)
Lemma executemany_spec (rows : list Row) (c : Connection Store) :
  match executemany query rows c with
  | (c', Return _) =>
      apply_rows query rows (pending c) = Some (pending c') /\
      committed c' = committed c
  | (c', Raise _) =>
      apply_rows query rows (pending c) = None /\
      committed c' = committed c
  end.
Proof.
  revert c. induction rows as [|row rows IH]; intros c; [done|].
  unfold executemany in *. cbn [for_each apply_rows].
  unfold execute at 1. destruct (query row (pending c)) as [[s' n]|e]; [|done].
  match goal with |- context [for_each _ rows ?c1] => specialize (IH c1) end.
  destruct (for_each _ rows _) as [c' [[]|e]]; simpl in *; done.
Qed.
End TransactionFacts.

Section LoaderTransaction.
Import Chunking Database Schema Load LoadSpec.
Context {Row : Type} (query : Statement Store Row).

Lemma _execute_chunks_rows (rows : list Row) (b : nat) (c : Connection Store) :
  (1 <= b)%nat ->
  _execute_chunks query rows b c = executemany query rows c.
Proof.
  intros Hb. unfold _execute_chunks.
  rewrite for_each_chunks, _chunked_concat; done.
Qed.

Lemma transaction_execute_chunks (rows : list Row) (b : nat) (c : Connection Store) :
  (1 <= b)%nat ->
  match transaction (_execute_chunks query rows b) c with
  | (c', Return _) =>
      apply_rows query rows (pending c) = Some (committed c') /\
      pending c' = committed c'
  | (c', Raise _) =>
      apply_rows query rows (pending c) = None /\
      committed c' = committed c /\ pending c' = committed c
  end.
Proof.
  intros Hb. unfold transaction. rewrite _execute_chunks_rows by done.
  pose proof (executemany_spec query rows c) as H.
  destruct (executemany query rows c) as [c' [[]|e]]; simpl; intuition.
Qed.

(** C1, as the code has it: a loader submits its rows in consecutive chunks
    of at most [b] rows, and all the chunks of one load run inside a
    single transaction.  When every row is accepted the whole record set
    is committed at once; when any row of any chunk fails, everything the
    load wrote, the rows of earlier chunks included, is rolled back and
    the store is the one of the last commit.  [run_insert] is the body
    shared by the five loaders. *)
Theorem load_is_one_transaction (rows : list Row) (b : nat) (c : Connection Store) :
  (1 <= b)%nat ->
  (concat (_chunked rows b) = rows /\
   Forall (fun chunk => chunk <> [] /\ (length chunk <= b)%nat) (_chunked rows b)) /\
  match run_insert query rows b c with
  | (c', Return inserted) =>
      apply_rows query rows (pending c) = Some (committed c') /\
      pending c' = committed c' /\
      inserted = (total_changes c' - total_changes c)%nat
  | (c', Raise _) =>
      apply_rows query rows (pending c) = None /\
      committed c' = committed c /\ pending c' = committed c
  end.
Proof.
  intros Hb. split; [by apply chunked_partitions_rows_aux|].
  unfold run_insert.
  pose proof (transaction_execute_chunks rows b c Hb) as H.
  destruct (transaction (_execute_chunks query rows b) c) as [c' [[]|e]]; intuition.
Qed.
End LoaderTransaction.

Lemma load_is_one_transaction_witness :
  let c := LoadSpec.connect store_toy_story in
  let rows := Load.rating_rows [rating_ok; rating_orphan] in
  (concat (Chunking._chunked rows 1) = rows /\
   Forall (fun chunk => chunk <> [] /\ (length chunk <= 1)%nat) (Chunking._chunked rows 1)) /\
  match Load.run_insert Schema.sql_insert_rating rows 1 c with
  | (c', Return inserted) =>
      LoadSpec.apply_rows Schema.sql_insert_rating rows (Database.pending c) = Some (Database.committed c') /\
      Database.pending c' = Database.committed c' /\
      inserted = (Database.total_changes c' - Database.total_changes c)%nat
  | (c', Raise _) =>
      LoadSpec.apply_rows Schema.sql_insert_rating rows (Database.pending c) = None /\
      Database.committed c' = Database.committed c /\ Database.pending c' = Database.committed c
  end.
Proof.
  intros c rows. apply (load_is_one_transaction Schema.sql_insert_rating rows 1 c). lia.
Defined.

(** The five loaders are [run_insert] on the rows they build. *)
Lemma loaders_share_run_insert :
  (forall movies b, Load.insert_movies movies b
     = Load.run_insert Schema.sql_insert_movie (Load.movie_rows movies) b) /\
  (forall genres b, Load.insert_genres genres b
     = Load.run_insert Schema.sql_insert_genre genres b) /\
  (forall pairs b c, Load.insert_movie_genres pairs b c
     = Load.run_insert Schema.sql_insert_movie_genre
         (Load.movie_genre_rows (Schema.genres (Database.pending c)) pairs) b c) /\
  (forall ratings b, Load.insert_ratings ratings b
     = Load.run_insert Schema.sql_insert_rating (Load.rating_rows ratings) b) /\
  (forall details b, Load.insert_movie_details details b
     = Load.run_insert Schema.sql_replace_movie_detail (Load.detail_rows details) b).
Proof. repeat split. Qed.

(** C1, counterexample to the claim as stated: with batch size 1 the two
    ratings form two batches; the first batch on its own is accepted, the
    second violates the foreign key to Movie.  The load raises and the
    rating of the first batch is not in the store afterwards: it was not
    committed on its own. *)
Lemma earlier_batch_is_rolled_back :
  let c := LoadSpec.connect store_toy_story in
  let rows := Load.rating_rows [rating_ok; rating_orphan] in
  let load := Load.insert_ratings [rating_ok; rating_orphan] 1 c in
  Chunking._chunked rows 1 = [[(1, 1, 4 # 1, 964982703)]; [(1, 99, 3 # 1, 964982931)]] /\
  (Database.transaction
     (Database.executemany Schema.sql_insert_rating [(1, 1, 4 # 1, 964982703)]) c).2 = Return tt /\
  load.2 = Raise (IntegrityError "FOREIGN KEY constraint failed") /\
  Schema.ratings (Database.committed load.1) !! (1, 1, 964982703) = None /\
  Schema.ratings (Database.pending load.1) !! (1, 1, 964982703) = None.
Proof. vm_compute. repeat split; reflexivity. Qed.

(** ** Loading twice *)

Section PipelineFacts.
Import Pipeline.
Context {Store : Type}.


End PipelineFacts.

Section IgnoreStatements.
Import Database Schema LoadSpec.
Context {Row : Type} (query : Statement Store Row).
Context (present : Row -> Store -> Prop) (grows : Store -> Store -> Prop).
Hypothesis grows_refl : forall s, grows s s.
Hypothesis grows_trans : forall s1 s2 s3, grows s1 s2 -> grows s2 s3 -> grows s1 s3.
Hypothesis present_grows : forall row s s', grows s s' -> present row s -> present row s'.
Hypothesis query_ignores : forall row s, present row s -> query row s = Return (s, 0%nat).
Hypothesis query_inserts :
  forall row s s' n, query row s = Return (s', n) -> grows s s' /\ present row s'.


End IgnoreStatements.

Section LoaderStages.
Import Database Schema Load LoadSpec Pipeline.


(** *** Movies *)



(** *** Genres *)



(** *** Movie-genre pairs *)



(** *** Ratings *)



(** *** Movie details *)






(** *** The pipeline of the five loaders *)




End LoaderStages.
Section LoadTwice.
Import Database Schema Load LoadSpec Pipeline.

Lemma run_insert_follows {Row} (q : Statement Store Row) rows (b : nat) :
  (1 <= b)%nat -> follows (run_insert q rows b) (load_stage q (fun _ => rows)).
Proof.
  intros Hb c Hc. unfold run_insert, load_stage.
  pose proof (transaction_execute_chunks q rows b c Hb) as H.
  destruct (transaction (_execute_chunks q rows b) c) as [c' [[]|e]]; simpl;
    rewrite <- Hc; destruct H as [-> H]; [done|].
  destruct H as [H1 H2]. rewrite H2, H1, Hc. done.
Qed.

Lemma insert_movie_genres_follows recs (b : nat) :
  (1 <= b)%nat ->
  follows (insert_movie_genres recs b)
    (load_stage sql_insert_movie_genre (fun s => movie_genre_rows (genres s) recs)).
Proof.
  intros Hb c Hc. unfold insert_movie_genres, _genre_map.
  pose proof (run_insert_follows sql_insert_movie_genre
                (movie_genre_rows (genres (pending c)) recs) b Hb c Hc) as H.
  unfold load_stage in *. by rewrite <- Hc in *.
Qed.

Lemma follows_return {A} (x : A) :
  follows (fun c => (c, Return x)) (run_stages []).
Proof. by intros c Hc. Qed.

Lemma follows_then {A B} (m : DB Store A) (k : A -> DB Store B) stage stages :
  follows m stage -> (forall a, follows (k a) (run_stages stages)) ->
  follows (then_load m k) (run_stages (stage :: stages)).
Proof.
  intros Hm Hk c Hc. unfold then_load. simpl.
  destruct (Hm c Hc) as (H1 & H2 & H3).
  destruct (m c) as [c' [a|e]]; simpl in *.
  - destruct (stage (committed c)) as [s' ok]; simpl in *; subst.
    apply (Hk a c' H1).
  - destruct (stage (committed c)) as [s' ok]; simpl in *; subst. done.
Qed.

Lemma load_all_follows rs (b : nat) :
  (1 <= b)%nat -> follows (load_all rs b) (run_stages (load_stages rs)).
Proof.
  intros Hb. unfold load_all, load_stages.
  apply follows_then; [by apply run_insert_follows|]; intros n1.
  apply follows_then; [by apply run_insert_follows|]; intros n2.
  apply follows_then; [by apply insert_movie_genres_follows|]; intros n3.
  apply follows_then; [by apply run_insert_follows|]; intros n4.
  apply follows_then; [by apply run_insert_follows|]; intros n5.
  apply follows_return.
Qed.



(** With a batch size of 0 the first chunk is empty and nothing is
    written. *)
Lemma run_insert_zero {Row} (q : Statement Store Row) rows (c : Connection Store) :
  run_insert q rows 0 c = (commit c, Return 0%nat).
Proof.
  unfold run_insert, transaction, _execute_chunks. rewrite _chunked_zero. simpl.
  by rewrite Nat.sub_diag.
Qed.


End LoadTwice.


Example load_toy_story_counts :
  let c := LoadSpec.connect Schema.empty_store in
  let once := Load.load_all toy_story_records 2 c in
  once.2 = Return (1, 3, 3, 2, 1)%nat /\
  Schema.row_counts (Database.committed once.1) = (1, 3, 3, 2, 1)%nat /\
  (Load.load_all toy_story_records 2 once.1).2 = Return (0, 0, 0, 0, 1)%nat.
Proof. vm_compute. repeat split; reflexivity. Qed.

(** ** The enrichment client *)

Section BackoffFacts.
Import ApiClient.



End BackoffFacts.

Section RetryFacts.
Import ApiClient.
Variable transport : nat -> string -> Response.



(** [n] failing attempts in a row: the loop goes on with the remaining
    attempts, one request and one backoff per failure later. *)
Lemma attempt_loop_failures (imdb_id : string) (n : nat) :
  forall (a : Z) (rest : list Z) (self : Client),
    (forall j, (j < n)%nat -> transport (requests self + j) imdb_id = TransportError) ->
    exists self',
      attempt_loop transport imdb_id (seqZ a (Z.of_nat n) ++ rest) self
        = attempt_loop transport imdb_id rest self' /\
      _cache self' = _cache self /\
      requests self' = (requests self + n)%nat /\
      max_retries self' = max_retries self /\
      rate_limit_delay self' = rate_limit_delay self /\
      events self' = events self ++
        flat_map (fun k => [Request imdb_id; Backoff (backoff_delay k)]) (seqZ a (Z.of_nat n)).
Proof.
  induction n as [|n IH]; intros a rest self Hfail.
  - exists self. simpl. rewrite Nat.add_0_r, app_nil_r. done.
  - rewrite seqZ_cons by lia. replace (Z.pred (Z.of_nat (S n))) with (Z.of_nat n) by lia.
    cbn [app attempt_loop]. unfold get.
    pose proof (Hfail 0%nat ltac:(lia)) as H0. rewrite Nat.add_0_r in H0. rewrite H0.
    destruct (IH (Z.succ a) rest (_backoff a (sent (emit (Request imdb_id) self))))
      as (self' & Hloop & Hc & Hr & Hm & Hd & He).
    { intros j Hj. simpl. replace (S (requests self + j)) with (requests self + S j)%nat by lia.
      apply Hfail. lia. }
    exists self'. rewrite Hloop. repeat split; try done.
    + rewrite Hr. simpl. lia.
    + rewrite He. simpl. by rewrite <- !app_assoc.
Qed.

Lemma fetch_movie_after_failures (self : Client) (imdb_id : string) (n : nat) (payload : Payload) :
  Z.of_nat n < max_retries self ->
  _cache self !! imdb_id = None ->
  (forall j, (j < n)%nat -> transport (requests self + j) imdb_id = TransportError) ->
  transport (requests self + n) imdb_id = Body payload ->
  let result := fetch_movie transport imdb_id self in
  result.1 = (if is_negative payload then None else Some payload) /\
  _cache result.2 = <[imdb_id := cached_entry payload]> (_cache self) /\
  requests result.2 = (requests self + n + 1)%nat /\
  max_retries result.2 = max_retries self /\
  events result.2 = events self ++
    flat_map (fun k => [Request imdb_id; Backoff (backoff_delay k)]) (seqZ 1 (Z.of_nat n)) ++
    [Request imdb_id; Persist (<[imdb_id := cached_entry payload]> (_cache self))] ++
    (if is_negative payload then [] else [RateLimit (rate_limit_delay self)]).
Proof.
  intros Hn Hcache Hfail Hbody result. subst result. unfold fetch_movie. rewrite Hcache.
  replace (max_retries self) with (Z.of_nat n + (max_retries self - Z.of_nat n)) by lia.
  rewrite seqZ_app by lia.
  destruct (attempt_loop_failures imdb_id n 1 (seqZ (1 + Z.of_nat n) (max_retries self - Z.of_nat n))
              self Hfail) as (self' & -> & Hc & Hr & Hm & Hd & He).
  rewrite seqZ_cons by lia. cbn [attempt_loop]. unfold get. rewrite Hr, Hbody.
  unfold cached_entry. destruct (is_negative payload); simpl;
    rewrite ?Hc, ?Hr, ?He, ?Hd, <- ?app_assoc; repeat split; try done; lia.
Qed.


Lemma attempt_loop_keeps (imdb_id other : string) (entry : Payload) (attempts : list Z) :
  other <> imdb_id ->
  forall self, _cache self !! imdb_id = Some entry ->
    _cache (attempt_loop transport other attempts self).2 !! imdb_id = Some entry.
Proof.
  intros Hne. induction attempts as [|a attempts IH]; intros self Hc; [done|].
  cbn [attempt_loop]. unfold get.
  destruct (transport (requests self) other) as [|body].
  - apply IH. done.
  - destruct (is_negative body); simpl; by rewrite lookup_insert_ne.
Qed.

(** A fetch never drops or changes an entry of the cache. *)
Lemma fetch_movie_keeps (imdb_id other : string) (entry : Payload) (self : Client) :
  _cache self !! imdb_id = Some entry ->
  _cache (fetch_movie transport other self).2 !! imdb_id = Some entry.
Proof.
  intros Hc. unfold fetch_movie.
  destruct (_cache self !! other) eqn:Ho; [done|].
  apply attempt_loop_keeps; [congruence | done].
Qed.

Lemma fetches_keep (imdb_id : string) (entry : Payload) (later : list string) :
  forall self, _cache self !! imdb_id = Some entry ->
    _cache (foldl (fun s i => (fetch_movie transport i s).2) self later) !! imdb_id = Some entry.
Proof.
  induction later as [|i later IH]; intros self Hc; [done|].
  simpl. apply IH. by apply fetch_movie_keeps.
Qed.

(** C4: once a first fetch for an id has ended in a decoded answer,
    found or structured "not found", every later fetch for that id, after
    any fetches in between, returns the cached entry and leaves the
    client and the world as they are: no request is sent, nothing is
    slept, nothing is persisted. *)
Theorem resolved_id_served_from_cache (self : Client) (imdb_id : string) (k : nat)
    (payload : Payload) (later : list string) :
  _cache self !! imdb_id = None ->
  Z.of_nat k < max_retries self ->
  (forall j, (j < k)%nat -> transport (requests self + j) imdb_id = TransportError) ->
  transport (requests self + k) imdb_id = Body payload ->
  let first := (fetch_movie transport imdb_id self).2 in
  let self' := foldl (fun s i => (fetch_movie transport i s).2) first later in
  let again := fetch_movie transport imdb_id self' in
  again = (Some (cached_entry payload), self') /\
  requests again.2 = requests self' /\ events again.2 = events self'.
Proof.
  intros Hcache Hk Hfail Hbody first self' again.
  destruct (fetch_movie_after_failures self imdb_id k payload Hk Hcache Hfail Hbody)
    as (_ & Hc & _).
  assert (_cache self' !! imdb_id = Some (cached_entry payload)) as Hentry.
  { apply fetches_keep. unfold first. rewrite Hc. apply lookup_insert_eq. }
  assert (again = (Some (cached_entry payload), self')) as ->.
  { unfold again, fetch_movie. by rewrite Hentry. }
  done.
Qed.

(** Whatever the service does: a cached negative marker for an id reaches
    the result of a bulk fetch of that id. *)
Lemma fetch_bulk_cached_negative (self : Client) (imdb_id reason : string) :
  imdb_id <> "" ->
  _cache self !! imdb_id = Some (negative reason) ->
  fetch_bulk transport [imdb_id] None self = ({[ imdb_id := negative reason ]}, self).
Proof.
  intros Hid Hc. unfold fetch_bulk. cbn [bulk_loop].
  rewrite bool_decide_eq_false_2 by done.
  unfold fetch_movie. rewrite Hc. unfold truthy.
  rewrite bool_decide_eq_false_2; [by rewrite insert_empty|].
  unfold negative. intros H.
  apply (f_equal (fun m : gmap string string => m !! "Response")) in H.
  by rewrite lookup_insert_eq in H.
Qed.
End RetryFacts.


Lemma resolved_id_served_from_cache_witness :
  let self := ApiClient.new_client 3 (1 # 4) ∅ in
  let first := (ApiClient.fetch_movie not_found_service "tt0000001" self).2 in
  let self' := foldl (fun s i => (ApiClient.fetch_movie not_found_service i s).2) first ["tt0000002"] in
  let again := ApiClient.fetch_movie not_found_service "tt0000001" self' in
  again = (Some (ApiClient.cached_entry {[ "Response" := "False"; "Error" := "Movie not found!" ]}), self') /\
  ApiClient.requests again.2 = ApiClient.requests self' /\
  ApiClient.events again.2 = ApiClient.events self'.
Proof.
  intros self.
  apply (resolved_id_served_from_cache not_found_service self "tt0000001" 0
           {[ "Response" := "False"; "Error" := "Movie not found!" ]} ["tt0000002"]).
  - reflexivity.
  - simpl. lia.
  - intros j Hj. lia.
  - reflexivity.
Defined.

Example backoff_schedule :
  Forall2 Qeq (ApiClient.backoff_delay <$> seqZ 1 6) [1 # 2; 1; 2; 4; 5; 5]%Q.
Proof. repeat constructor. Qed.

(** C2: the service answers "not found" for an id.  The first bulk fetch
    asks the service, caches the negative marker and returns the empty
    mapping; the second bulk fetch, served from the cache without a
    request, returns a mapping that holds the id with the negative
    marker. *)
Theorem cached_negative_in_bulk_result :
  let self := ApiClient.new_client 3 (1 # 4) ∅ in
  let first := ApiClient.fetch_bulk not_found_service ["tt0000001"] None self in
  let second := ApiClient.fetch_bulk not_found_service ["tt0000001"] None first.2 in
  first.1 = ∅ /\
  ApiClient._cache first.2 !! "tt0000001" = Some (ApiClient.negative "Movie not found!") /\
  second.1 = {[ "tt0000001" := ApiClient.negative "Movie not found!" ]} /\
  ApiClient.requests second.2 = ApiClient.requests first.2.
Proof. vm_compute. repeat split; reflexivity. Qed.

(** ** External ids *)

Section DecimalFacts.
Import Text Ids.

Lemma digits_value_acc (cs : list ascii) (acc : Z) :
  digits_value acc cs = acc * 10 ^ Z.of_nat (length cs) + digits_value 0 cs.
Proof.
  revert acc. induction cs as [|c cs IH]; intros acc; simpl.
  - lia.
  - rewrite IH, (IH (10 * 0 + _)).
    replace (Z.of_nat (S (length cs))) with (Z.of_nat (length cs) + 1) by lia.
    rewrite Z.pow_add_r by lia. lia.
Qed.

Lemma pretty_N_char_digit (y : N) :
  (y < 10)%N -> isdigit (pretty_N_char y) = true /\ digit_value (pretty_N_char y) = Z.of_N y.
Proof.
  intros Hy.
  assert (y = 0 \/ y = 1 \/ y = 2 \/ y = 3 \/ y = 4 \/ y = 5 \/ y = 6 \/ y = 7 \/ y = 8 \/ y = 9)%N
    as H by lia.
  repeat destruct H as [->|H]; try subst y; by vm_compute.
Qed.

Lemma pretty_N_go_digits (x : N) :
  forall s, forallb isdigit (chars s) = true ->
    forallb isdigit (chars (pretty_N_go x s)) = true /\
    digits_value 0 (chars (pretty_N_go x s)) =
      Z.of_N x * 10 ^ Z.of_nat (String.length s) + digits_value 0 (chars s).
Proof.
  induction (N.lt_wf_0 x) as [x _ IH]; intros s Hs.
  destruct (decide (x = 0)%N) as [->|Hx].
  - rewrite pretty_N_go_0. split; [done | lia].
  - rewrite pretty_N_go_step by lia.
    destruct (pretty_N_char_digit (x `mod` 10)%N) as [Hd Hv]; [by apply N.mod_lt|].
    destruct (IH (x `div` 10)%N) with (s := String (pretty_N_char (x `mod` 10)%N) s) as [H1 H2].
    { apply N.div_lt; lia. }
    { simpl. by rewrite Hd. }
    split; [done|]. rewrite H2. cbn [chars list_ascii_of_string String.length].
    change (digits_value 0 (pretty_N_char (x `mod` 10)%N :: list_ascii_of_string s))
      with (digits_value (10 * 0 + digit_value (pretty_N_char (x `mod` 10)%N)) (list_ascii_of_string s)).
    rewrite (digits_value_acc (list_ascii_of_string s)), Hv.
    replace (length (list_ascii_of_string s)) with (String.length s)
      by (clear; induction s; simpl; congruence).
    replace (Z.of_nat (S (String.length s))) with (Z.of_nat (String.length s) + 1) by lia.
    rewrite Z.pow_add_r by lia.
    pose proof (N.div_mod x 10 ltac:(done)) as Hdm.
    assert (Z.of_N x = 10 * Z.of_N (x `div` 10)%N + Z.of_N (x `mod` 10)%N) as -> by lia.
    unfold chars. lia.
Qed.


Lemma chars_app (a b : string) : chars (a +:+ b) = chars a ++ chars b.
Proof. induction a as [|c a IH]; simpl; [done|]. unfold chars in *. simpl. by rewrite IH. Qed.

Lemma chars_str (cs : list ascii) : chars (str cs) = cs.
Proof. apply list_ascii_of_string_of_list_ascii. Qed.

Lemma str_chars (s : string) : str (chars s) = s.
Proof. apply string_of_list_ascii_of_string. Qed.




Lemma digit_not_sign (c : ascii) :
  isdigit c = true -> (Ascii.eqb c "+" || Ascii.eqb c "-")%bool = false.
Proof.
  intros H. destruct (Ascii.eqb_spec c "+") as [->|_]; [done|].
  destruct (Ascii.eqb_spec c "-") as [->|_]; done.
Qed.

Lemma zfill_digits (width : nat) (s : string) :
  s <> "" -> forallb isdigit (chars s) = true ->
  chars (zfill width s) = replicate (width - String.length s) "0"%char ++ chars s.
Proof.
  intros Hne Hd. unfold zfill.
  destruct (Nat.leb_spec width (String.length s)) as [H|H].
  - by replace (width - String.length s)%nat with 0%nat by lia.
  - destruct s as [|c rest]; [done|].
    cbn [chars list_ascii_of_string forallb] in Hd. apply andb_true_iff in Hd as [Hc _].
    rewrite (digit_not_sign c Hc). by rewrite chars_app, chars_str.
Qed.

Lemma digits_value_zeros (n : nat) (cs : list ascii) :
  digits_value 0 (replicate n "0"%char ++ cs) = digits_value 0 cs.
Proof. induction n as [|n IH]; [done|]. simpl. exact IH. Qed.


(** The numeral of a non-negative integer: digits only, denoting it. *)
Lemma str_of_int_digits (n : Z) :
  0 <= n ->
  str_of_int n <> "" /\
  forallb isdigit (chars (str_of_int n)) = true /\
  digits_value 0 (chars (str_of_int n)) = n.
Proof.
  intros Hn. unfold str_of_int, pretty, pretty_Z. destruct n as [|p|p]; [done| |lia].
  unfold pretty, pretty_positive, pretty, pretty_N.
  destruct (decide (N.pos p = 0%N)); [done|].
  destruct (pretty_N_go_digits (N.pos p) "" eq_refl) as [H1 H2].
  simpl in H2. split; [|split; [done | rewrite H2; lia]].
  intros Hempty. rewrite Hempty in H2. simpl in H2. lia.
Qed.

End DecimalFacts.

Section FormatFacts.
Import Text Ids.

Lemma format_numeric (v : Cell) (n : Z) :
  numeric_value v = Some n -> 0 <= n ->
  _format_imdb_id v = Some ("tt" +:+ zfill 7 (str_of_int n)).
Proof.
  intros Hv Hn. destruct (str_of_int_digits n Hn) as (Hne & _).
  unfold _format_imdb_id.
  destruct v; try discriminate; simpl in *; injection Hv as ->;
    by rewrite bool_decide_eq_false_2.
Qed.

End FormatFacts.



(** ** Titles *)

Section MatcherFacts.
Import Text Re Titles.

Lemma match_star_cons (p : ascii -> bool) (pattern : list atom) (c : ascii) (text : list ascii) :
  match_here (Star p :: pattern) (c :: text) =
  if p c
  then match match_here (Star p :: pattern) text with
       | Some rest => Some rest
       | None => match_here pattern (c :: text)
       end
  else match_here pattern (c :: text).
Proof. reflexivity. Qed.

Lemma match_star_nil (p : ascii -> bool) (pattern : list atom) :
  match_here (Star p :: pattern) [] = match_here pattern [].
Proof. reflexivity. Qed.

(** [\s*$]: all of the text, when it is whitespace. *)
Lemma match_trailing_space (text : list ascii) :
  match_here [Star isspace; Dollar] text =
  if forallb isspace text then Some [] else None.
Proof.
  induction text as [|c text IH]; [done|].
  rewrite match_star_cons, IH. cbn [forallb].
  destruct (isspace c) eqn:Hc; simpl.
  - destruct (forallb isspace text) eqn:Hall; [done|].
    destruct text as [|c' text]; [done|]. done.
  - destruct text as [|c' text]; [|done].
    destruct (Ascii.eqb_spec c "010") as [->|_]; [discriminate Hc | done].
Qed.

Lemma match_year_group (text : list ascii) :
  match_here year_group text = if year_tail text then Some [] else None.
Proof.
  unfold year_group, year_tail.
  destruct text as [|c0 [|c1 [|c2 [|c3 [|c4 [|c5 trail]]]]]]; cbn [match_here];
    try (by repeat case_match).
  destruct (Ascii.eqb "(" c0); [|done].
  destruct (isdigit c1); [|done]. destruct (isdigit c2); [|done].
  destruct (isdigit c3); [|done]. destruct (isdigit c4); [|done].
  destruct (Ascii.eqb ")" c5); [|done].
  change (match_here [Star isspace; Dollar] trail =
          if true && true && true && true && true && true && forallb isspace trail
          then Some [] else None).
  rewrite match_trailing_space. by destruct (forallb isspace trail).
Qed.

(** A greedy [\s*] before a pattern that cannot start with whitespace. *)
Lemma match_leading_space (pattern : list atom) (text : list ascii) :
  (forall c u, isspace c = true -> match_here pattern (c :: u) = None) ->
  match_here (Star isspace :: pattern) text = match_here pattern (lstrip text).
Proof.
  intros Hfail. induction text as [|c text IH]; [done|].
  rewrite match_star_cons, IH. cbn [lstrip].
  destruct (isspace c) eqn:Hc; [|done].
  destruct (match_here pattern (lstrip text)); [done|]. by apply Hfail.
Qed.

Lemma match_year_suffix (text : list ascii) :
  match_here year_suffix text = if year_tail (lstrip text) then Some [] else None.
Proof.
  assert (forall c u, isspace c = true -> match_here year_group (c :: u) = None) as Hfail.
  { intros c u Hc. unfold year_group. cbn [match_here].
    destruct (Ascii.eqb_spec "(" c) as [<-|_]; [discriminate Hc | done]. }
  change year_suffix with (Star isspace :: year_group).
  rewrite (match_leading_space year_group text Hfail). apply match_year_group.
Qed.

Lemma sub_step (pattern : list atom) (repl text : list ascii) :
  sub pattern repl text =
  match match_here pattern text with
  | Some rest =>
      if (length rest <? length text)%nat then repl ++ sub pattern repl rest
      else match text with
           | [] => repl
           | c :: text' => repl ++ c :: sub pattern repl text'
           end
  | None =>
      match text with
      | [] => []
      | c :: text' => c :: sub pattern repl text'
      end
  end.
Proof.
  funelim (sub pattern repl text).
  all: repeat match goal with
         | H : match_here _ _ = _ |- _ => rewrite H
         | H : (_ <? _)%nat = _ |- _ => rewrite H
       end; done.
Qed.

Lemma sub_year_suffix (text : list ascii) :
  sub year_suffix [] text = cut_year text.
Proof.
  induction text as [|c text IH]; rewrite sub_step, match_year_suffix.
  - done.
  - cbn [cut_year]. destruct (year_tail (lstrip (c :: text))); simpl.
    + by rewrite sub_step.
    + by rewrite IH.
Qed.
End MatcherFacts.

Section StripFacts.
Import Text.

Lemma forallb_rev (p : ascii -> bool) (cs : list ascii) :
  forallb p (rev cs) = forallb p cs.
Proof.
  induction cs as [|c cs IH]; [done|]. simpl. rewrite forallb_app, IH. simpl.
  by rewrite andb_true_r, andb_comm.
Qed.

Lemma rstrip_nil (cs : list ascii) : rstrip cs = [] <-> forallb isspace cs = true.
Proof.
  induction cs as [|c cs IH]; [done|]. cbn [rstrip forallb].
  destruct (rstrip cs) eqn:E.
  - destruct (isspace c); simpl; [tauto|]. split; done.
  - split; [done|]. intros [_ H]%andb_true_iff. apply IH in H. done.
Qed.

Lemma rstrip_cons (c : ascii) (cs : list ascii) :
  rstrip (c :: cs) = if forallb isspace (c :: cs) then [] else c :: rstrip cs.
Proof.
  cbn [rstrip forallb]. destruct (rstrip cs) eqn:E.
  - apply rstrip_nil in E. rewrite E, andb_true_r. by destruct (isspace c).
  - destruct (forallb isspace cs) eqn:H; [|by rewrite andb_false_r].
    apply rstrip_nil in H. congruence.
Qed.

Lemma lstrip_space (w text : list ascii) :
  forallb isspace w = true -> lstrip (w ++ text) = lstrip text.
Proof.
  induction w as [|c w IH]; [done|]. cbn [forallb app lstrip].
  intros [-> H]%andb_true_iff. by apply IH.
Qed.

Lemma rstrip_app_space (cs w : list ascii) :
  forallb isspace w = true -> rstrip (cs ++ w) = rstrip cs.
Proof.
  intros Hw. induction cs as [|c cs IH]; [by apply rstrip_nil|].
  rewrite <- app_comm_cons, !rstrip_cons, IH. cbn [forallb].
  by rewrite forallb_app, Hw, andb_true_r.
Qed.

Lemma rstrip_nonspace_end (cs : list ascii) (c : ascii) :
  isspace c = false -> rstrip (cs ++ [c]) = cs ++ [c].
Proof.
  intros Hc. induction cs as [|c' cs IH]; [simpl; by rewrite Hc|].
  rewrite <- app_comm_cons, rstrip_cons, IH. cbn [forallb].
  by rewrite forallb_app; simpl; rewrite Hc, andb_false_r, andb_false_r.
Qed.

Lemma rstrip_idempotent (cs : list ascii) : rstrip (rstrip cs) = rstrip cs.
Proof.
  induction cs as [|c cs IH]; [done|]. rewrite rstrip_cons.
  destruct (forallb isspace (c :: cs)) eqn:H; [done|].
  rewrite rstrip_cons, IH. cbn [forallb] in *.
  destruct (isspace c); simpl in *; [|done].
  destruct (forallb isspace (rstrip cs)) eqn:H'; [|done].
  apply rstrip_nil in H'. rewrite IH in H'. apply rstrip_nil in H'. congruence.
Qed.

Lemma lstrip_rstrip (cs : list ascii) : lstrip (rstrip cs) = rstrip (lstrip cs).
Proof.
  induction cs as [|c cs IH]; [done|]. rewrite rstrip_cons. cbn [forallb lstrip].
  destruct (isspace c) eqn:Hc; cbn [andb].
  - destruct (forallb isspace cs) eqn:H.
    + symmetry. apply rstrip_nil. clear -H. induction cs as [|c cs IH]; [done|].
      simpl in *. apply andb_true_iff in H as [-> H]. by apply IH.
    + cbn [lstrip]. by rewrite Hc.
  - cbn [lstrip]. rewrite Hc, rstrip_cons. cbn [forallb]. by rewrite Hc.
Qed.

Lemma strip_rstrip (cs : list ascii) : strip (rstrip cs) = strip cs.
Proof. unfold strip. by rewrite lstrip_rstrip, rstrip_idempotent. Qed.

(** What [rstrip] removes is whitespace. *)
Lemma rstrip_split (cs : list ascii) :
  exists w, forallb isspace w = true /\ cs = rstrip cs ++ w.
Proof.
  induction cs as [|c cs (w & Hw & IH)]; [by exists []|].
  rewrite rstrip_cons. destruct (forallb isspace (c :: cs)) eqn:H.
  - by exists (c :: cs).
  - exists w. split; [done|]. simpl. by rewrite <- IH.
Qed.

Lemma lstrip_split (cs : list ascii) :
  exists w, forallb isspace w = true /\ cs = w ++ lstrip cs.
Proof.
  induction cs as [|c cs (w & Hw & IH)]; [by exists []|].
  cbn [lstrip]. destruct (isspace c) eqn:Hc.
  - exists (c :: w). simpl. rewrite Hc, Hw. split; [done | by rewrite <- IH].
  - by exists [].
Qed.
End StripFacts.

Section CollapseFacts.
Import Text Re Titles.

Lemma match_space_run (text : list ascii) :
  match_here space_run text =
  match text with
  | a :: b :: rest => if isspace a && isspace b then Some (lstrip rest) else None
  | _ => None
  end.
Proof.
  unfold space_run. destruct text as [|a [|b rest]]; cbn [match_here]; try done.
  - by destruct (isspace a).
  - destruct (isspace a); [|done]. destruct (isspace b); [|done]. simpl.
    change (match_here [Star isspace] rest = Some (lstrip rest)).
    induction rest as [|c rest IH]; [done|].
    rewrite match_star_cons, IH. cbn [lstrip match_here]. by destruct (isspace c).
Qed.

Lemma length_lstrip (cs : list ascii) : (length (lstrip cs) <= length cs)%nat.
Proof. induction cs as [|c cs IH]; simpl; [done|]. destruct (isspace c); simpl; lia. Qed.

(** [re.sub(r'\s{2,}', ' ', text)], case by case. *)
Lemma sub_space_run (text : list ascii) :
  sub space_run [" "%char] text =
  match text with
  | a :: b :: rest =>
      if isspace a && isspace b then " "%char :: sub space_run [" "%char] (lstrip rest)
      else a :: sub space_run [" "%char] (b :: rest)
  | [a] => [a]
  | [] => []
  end.
Proof.
  rewrite sub_step, match_space_run.
  destruct text as [|a [|b rest]]; [done| |].
  - by rewrite sub_step, match_space_run.
  - destruct (isspace a && isspace b); [|done].
    pose proof (length_lstrip rest) as Hl.
    replace (length (lstrip rest) <? length (a :: b :: rest))%nat with true; [done|].
    symmetry. apply Nat.ltb_lt. simpl. lia.
Qed.
End CollapseFacts.

Section NormalizeFacts.
Import Text Re Titles.

Lemma non_space_lstrip (cs : list ascii) : non_space (lstrip cs) = non_space cs.
Proof.
  induction cs as [|c cs IH]; [done|]. cbn [lstrip]. unfold non_space in *.
  cbn [List.filter]. destruct (isspace c) eqn:Hc; simpl; [done|].
  by rewrite Hc.
Qed.

Lemma non_space_rstrip (cs : list ascii) : non_space (rstrip cs) = non_space cs.
Proof.
  induction cs as [|c cs IH]; [done|]. rewrite rstrip_cons.
  destruct (forallb isspace (c :: cs)) eqn:H.
  - unfold non_space. symmetry. clear IH. induction (c :: cs) as [|x xs IHx]; [done|].
    cbn [forallb] in H. apply andb_true_iff in H as [Hx H]. cbn [List.filter].
    rewrite Hx. simpl. by apply IHx.
  - unfold non_space in *. cbn [List.filter]. by rewrite IH.
Qed.

Lemma lstrip_no_leading_space (cs : list ascii) : starts_with_space (lstrip cs) = false.
Proof.
  induction cs as [|c cs IH]; [done|]. cbn [lstrip].
  destruct (isspace c) eqn:Hc; [done|]. simpl. done.
Qed.

Lemma rstrip_no_trailing_space (cs : list ascii) : ends_with_space (rstrip cs) = false.
Proof.
  unfold ends_with_space. induction cs as [|c cs IH]; [done|]. cbn [rstrip].
  destruct (rstrip cs) as [|k kept] eqn:E.
  - destruct (isspace c) eqn:Hc; [done|]. simpl. by rewrite Hc.
  - by rewrite last_cons_cons.
Qed.

Lemma starts_with_space_rstrip (cs : list ascii) :
  starts_with_space cs = false -> starts_with_space (rstrip cs) = false.
Proof.
  destruct cs as [|c cs]; [done|]. rewrite rstrip_cons.
  by destruct (forallb isspace (c :: cs)).
Qed.

Lemma ends_with_space_cons (a : ascii) (cs : list ascii) :
  cs <> [] -> ends_with_space (a :: cs) = ends_with_space cs.
Proof.
  intros Hne. unfold ends_with_space. rewrite last_cons.
  destruct (last cs) eqn:E; [done|]. by apply last_None in E.
Qed.

(** The three properties of [re.sub(r'\s{2,}', ' ', text)], by induction on
    the length of the text. *)
Lemma sub_space_run_spec (n : nat) :
  forall text, (length text <= n)%nat ->
    let result := sub space_run [" "%char] text in
    non_space result = non_space text /\
    starts_with_space result = starts_with_space text /\
    adjacent_spaces result = false /\
    (text <> [] -> result <> []) /\
    (ends_with_space text = false -> ends_with_space result = false).
Proof.
  induction n as [|n IH]; intros text Hn result; subst result.
  { destruct text; [|simpl in Hn; lia]. by rewrite sub_space_run. }
  rewrite sub_space_run. destruct text as [|a [|b rest]]; [done| |].
  { simpl. rewrite orb_false_r, andb_false_r. done. }
  destruct (isspace a && isspace b) eqn:Hab.
  - apply andb_true_iff in Hab as [Ha Hb].
    pose proof (length_lstrip rest) as Hl.
    destruct (IH (lstrip rest)) as (H1 & H2 & H3 & H4 & H5); [simpl in Hn; lia|].
    rewrite lstrip_no_leading_space in H2.
    split; [|split; [|split; [|split]]].
    + unfold non_space in *. cbn [List.filter]. rewrite Ha, Hb. simpl.
      rewrite H1. apply non_space_lstrip.
    + simpl. by rewrite Ha.
    + cbn [adjacent_spaces]. by rewrite H2, H3.
    + done.
    + intros Hend.
      assert (rest <> []) as Hrest.
      { intros ->. unfold ends_with_space in Hend. simpl in Hend. congruence. }
      rewrite !ends_with_space_cons in Hend by done.
      assert (lstrip rest <> [] /\ ends_with_space (lstrip rest) = false) as [Hne Hend'].
      { clear -Hend Hrest. induction rest as [|x rest IHr]; [done|].
        cbn [lstrip]. destruct (isspace x) eqn:Hx; [|by split].
        destruct rest as [|y rest]; [unfold ends_with_space in Hend; simpl in Hend; congruence|].
        apply IHr; [|done]. by rewrite ends_with_space_cons in Hend. }
      rewrite ends_with_space_cons by auto. auto.
  - destruct (IH (b :: rest)) as (H1 & H2 & H3 & H4 & H5); [simpl in Hn; simpl; lia|].
    split; [|split; [|split; [|split]]].
    + unfold non_space in *. cbn [List.filter]. by rewrite H1.
    + done.
    + cbn [adjacent_spaces]. rewrite H2, H3. simpl. by rewrite Hab.
    + done.
    + intros Hend. rewrite ends_with_space_cons in Hend by done.
      rewrite ends_with_space_cons by auto. auto.
Qed.

(** Whitespace normalization keeps the characters that are not whitespace,
    in their order, and leaves no whitespace at either end and no two
    whitespace characters in a row. *)
Lemma normalize_whitespace_spec (s : string) :
  let normal := chars (normalize_whitespace s) in
  non_space normal = non_space (chars s) /\
  starts_with_space normal = false /\
  ends_with_space normal = false /\
  adjacent_spaces normal = false.
Proof.
  intros normal. unfold normal, normalize_whitespace. rewrite chars_str.
  destruct (sub_space_run_spec (length (strip (chars s))) (strip (chars s)) ltac:(done))
    as (H1 & H2 & H3 & _ & H5).
  unfold strip in *.
  split; [by rewrite H1, non_space_rstrip, non_space_lstrip|].
  split; [rewrite H2; apply starts_with_space_rstrip, lstrip_no_leading_space|].
  split; [apply H5, rstrip_no_trailing_space | done].
Qed.
End NormalizeFacts.

Section TitleFacts.
Import Text Re Titles.

Lemma year_tail_trail (text : list ascii) :
  year_tail text = true -> forallb isspace (drop 6 text) = true.
Proof.
  destruct text as [|c0 [|c1 [|c2 [|c3 [|c4 [|c5 trail]]]]]]; try done.
  unfold year_tail. intros H. by apply andb_true_iff in H as [_ H].
Qed.

Lemma year_tail_shape (text : list ascii) :
  year_tail text = true ->
  exists y trail, text = "("%char :: y ++ ")"%char :: trail /\
    length y = 4%nat /\ forallb isdigit y = true /\ forallb isspace trail = true.
Proof.
  destruct text as [|c0 [|c1 [|c2 [|c3 [|c4 [|c5 trail]]]]]]; try done.
  unfold year_tail. intros H.
  repeat (apply andb_true_iff in H as [H ?]).
  apply Ascii.eqb_eq in H as <-.
  match goal with E : Ascii.eqb ")" c5 = true |- _ => apply Ascii.eqb_eq in E as <- end.
  exists [c1; c2; c3; c4], trail. cbn [app length forallb].
  repeat match goal with E : isdigit _ = true |- _ => rewrite E; clear E end. done.
Qed.

Lemma year_tail_year (y trail : list ascii) :
  length y = 4%nat -> forallb isdigit y = true -> forallb isspace trail = true ->
  year_tail ("("%char :: y ++ ")"%char :: trail) = true.
Proof.
  intros Hl Hd Ht. destruct y as [|a [|b [|c [|d [|]]]]]; try done.
  cbn [forallb] in Hd. repeat (apply andb_true_iff in Hd as [? Hd]).
  cbn [app]. unfold year_tail.
  repeat match goal with E : isdigit _ = true |- _ => rewrite E; clear E end.
  by rewrite Ht.
Qed.

(** A year tail does not start before the last parenthesized year. *)
Lemma year_tail_prefix (before y trail : list ascii) :
  before <> [] -> length y = 4%nat ->
  year_tail (before ++ "("%char :: y ++ ")"%char :: trail) = false.
Proof.
  intros Hne Hl. destruct (year_tail _) eqn:E; [|done].
  apply year_tail_trail in E.
  replace (before ++ "("%char :: y ++ ")"%char :: trail)
    with ((before ++ "("%char :: y) ++ ")"%char :: trail) in E
    by (by rewrite <- app_assoc).
  rewrite drop_app_le in E.
  - rewrite forallb_app in E. by apply andb_true_iff in E as [_ E].
  - rewrite length_app. simpl. rewrite Hl. destruct before; [done|]. simpl. lia.
Qed.

Lemma year_tail_lstrip (before y trail : list ascii) :
  length y = 4%nat -> forallb isdigit y = true -> forallb isspace trail = true ->
  year_tail (lstrip (before ++ "("%char :: y ++ ")"%char :: trail)) = forallb isspace before.
Proof.
  intros Hl Hd Ht. induction before as [|c before IH].
  - simpl. by apply year_tail_year.
  - cbn [app lstrip forallb]. destruct (isspace c) eqn:Hc; [done|].
    by apply (year_tail_prefix (c :: before)).
Qed.

Lemma cut_year_before (before y trail : list ascii) :
  length y = 4%nat -> forallb isdigit y = true -> forallb isspace trail = true ->
  cut_year (before ++ "("%char :: y ++ ")"%char :: trail) = rstrip before.
Proof.
  intros Hl Hd Ht. induction before as [|c before IH].
  - cbn [app cut_year]. change ("("%char :: y ++ ")"%char :: trail)
      with ([] ++ "("%char :: y ++ ")"%char :: trail) at 1.
    by rewrite year_tail_lstrip.
  - rewrite rstrip_cons. cbn [app cut_year].
    change (c :: before ++ "("%char :: y ++ ")"%char :: trail)
      with ((c :: before) ++ "("%char :: y ++ ")"%char :: trail).
    rewrite year_tail_lstrip by done.
    destruct (forallb isspace (c :: before)); [done | by rewrite IH].
Qed.

Lemma search_year_group (before y : list ascii) :
  length y = 4%nat -> forallb isdigit y = true ->
  search year_group (before ++ "("%char :: y ++ [")"%char])
  = Some (before, "("%char :: y ++ [")"%char], []).
Proof.
  intros Hl Hd. induction before as [|c before IH].
  - pose proof (year_tail_year y [] Hl Hd eq_refl) as H.
    cbn [app search]. rewrite match_year_group, H.
    cbn [length]. by rewrite Nat.sub_0_r, take_ge.
  - cbn [app search]. rewrite match_year_group.
    pose proof (year_tail_prefix (c :: before) y [] ltac:(done) Hl) as H.
    cbn [app] in H. rewrite H, IH. done.
Qed.

Lemma strip_year (before y trail : list ascii) :
  forallb isspace trail = true ->
  exists before', strip (before ++ "("%char :: y ++ ")"%char :: trail)
                  = before' ++ "("%char :: y ++ [")"%char].
Proof.
  intros Ht. unfold strip.
  assert (exists before', lstrip (before ++ "("%char :: y ++ ")"%char :: trail)
                          = before' ++ "("%char :: y ++ ")"%char :: trail) as [b' ->].
  { induction before as [|c before [b' IH]]; [by exists []|].
    cbn [app lstrip]. destruct (isspace c); [by exists b' | by exists (c :: before)]. }
  exists b'.
  replace (b' ++ "("%char :: y ++ ")"%char :: trail)
    with (((b' ++ "("%char :: y) ++ [")"%char]) ++ trail)
    by (by rewrite <- !app_assoc).
  rewrite rstrip_app_space by done.
  rewrite rstrip_nonspace_end by done. by rewrite <- app_assoc.
Qed.

(** The first half, on lists of characters and with trailing whitespace
    allowed after the year. *)
Lemma title_with_year (before y trail : list ascii) :
  length y = 4%nat -> forallb isdigit y = true -> forallb isspace trail = true ->
  let title := str (before ++ "("%char :: y ++ ")"%char :: trail) in
  _clean_title title = normalize_whitespace (str before) /\
  _extract_year title = Some (digits_value 0 y).
Proof.
  intros Hl Hd Ht title. unfold title, _clean_title, normalize_whitespace, _extract_year.
  rewrite !chars_str. split.
  - by rewrite sub_year_suffix, cut_year_before, strip_rstrip.
  - destruct (strip_year before y trail Ht) as [b' ->].
    rewrite search_year_group by done.
    destruct y as [|a [|b [|c [|d [|]]]]]; try done.
    cbn [app drop take]. unfold int_of_digits. by rewrite Hd.
Qed.

Lemma year_tail_has_suffix (title : string) (before tail : list ascii) :
  chars title = before ++ tail -> year_tail tail = true -> has_year_suffix title = true.
Proof.
  intros Ht Hy. apply year_tail_shape in Hy as (y & trail & -> & Hl & Hd & Hs).
  unfold has_year_suffix. rewrite Ht.
  destruct y as [|a [|b [|c [|d [|]]]]]; try done.
  rewrite rev_app_distr. cbn [app rev]. rewrite <- !app_assoc. cbn [app].
  rewrite lstrip_space by (by rewrite forallb_rev).
  cbn [lstrip]. replace (isspace ")") with false by done.
  cbn [forallb] in Hd. repeat (apply andb_true_iff in Hd as [? Hd]).
  repeat match goal with E : isdigit _ = true |- _ => rewrite E; clear E end. done.
Qed.

(** A title with the suffix is some text, a parenthesized four-digit year
    and trailing whitespace: the two cases of [title_cleaning_and_year]
    cover every title. *)
Lemma has_year_suffix_shape (title : string) :
  has_year_suffix title = true ->
  exists before y trail,
    chars title = before ++ "("%char :: y ++ ")"%char :: trail /\
    length y = 4%nat /\ forallb isdigit y = true /\ forallb isspace trail = true.
Proof.
  unfold has_year_suffix. intros H.
  destruct (lstrip_split (rev (chars title))) as (w & Hw & Hrev).
  destruct (lstrip (rev (chars title)))
    as [|c5 [|d4 [|d3 [|d2 [|d1 [|c0 rest]]]]]]; try done.
  repeat (apply andb_true_iff in H as [H ?]).
  apply Ascii.eqb_eq in H as ->.
  match goal with E : Ascii.eqb c0 "(" = true |- _ => apply Ascii.eqb_eq in E as -> end.
  exists (rev rest), [d1; d2; d3; d4], (rev w).
  split; [|split; [done|split]].
  - rewrite <- (rev_involutive (chars title)), Hrev, rev_app_distr. simpl.
    by rewrite <- !app_assoc.
  - cbn [forallb]. repeat match goal with E : isdigit _ = true |- _ => rewrite E; clear E end. done.
  - by rewrite forallb_rev.
Qed.

Lemma cut_year_none (text : list ascii) :
  (forall before tail, text = before ++ tail -> year_tail tail = false) ->
  cut_year text = text.
Proof.
  induction text as [|c text IH]; intros H; [done|].
  cbn [cut_year].
  destruct (lstrip_split (c :: text)) as (w & _ & Hw).
  rewrite (H w (lstrip (c :: text)) Hw). f_equal. apply IH.
  intros before tail ->. by apply (H (c :: before) tail).
Qed.

Lemma search_none (pattern : list atom) (text : list ascii) :
  (forall before tail, text = before ++ tail -> match_here pattern tail = None) ->
  search pattern text = None.
Proof.
  induction text as [|c text IH]; intros H.
  - cbn [search]. by rewrite (H [] []).
  - cbn [search]. rewrite (H [] (c :: text)) by done.
    rewrite IH; [done|]. intros before tail ->. by apply (H (c :: before) tail).
Qed.

Lemma title_without_year (title : string) :
  has_year_suffix title = false ->
  _extract_year title = None /\ _clean_title title = normalize_whitespace title.
Proof.
  intros Hno.
  assert (forall before tail, chars title = before ++ tail -> year_tail tail = false) as Htail.
  { intros before tail Ht. destruct (year_tail tail) eqn:E; [|done].
    by rewrite (year_tail_has_suffix title before tail Ht E) in Hno. }
  split.
  - unfold _extract_year. rewrite search_none; [done|].
    intros before tail Hs. rewrite match_year_group.
    destruct (year_tail tail) eqn:E; [|done]. exfalso.
    destruct (lstrip_split (chars title)) as (w & _ & Hw).
    destruct (rstrip_split (lstrip (chars title))) as (w' & Hw' & Hr).
    fold (strip (chars title)) in Hr. rewrite Hs in Hr.
    apply year_tail_shape in E as (y & trail & -> & Hl & Hd & Htr).
    assert (year_tail ("("%char :: y ++ ")"%char :: trail ++ w') = true) as Hy.
    { apply year_tail_year; [done..|]. by rewrite forallb_app, Htr, Hw'. }
    rewrite (Htail (w ++ before) ("("%char :: y ++ ")"%char :: trail ++ w')) in Hy; [done|].
    rewrite Hw, Hr, <- !app_assoc. cbn [app]. by rewrite <- !app_assoc.
  - unfold _clean_title, normalize_whitespace.
    by rewrite sub_year_suffix, cut_year_none.
Qed.

End TitleFacts.


Example clean_toy_story :
  Titles._clean_title "Toy  Story  (1995)" = "Toy Story" /\
  Titles._extract_year "Toy  Story  (1995)" = Some 1995 /\
  Titles.normalize_whitespace "Toy  Story" = "Toy Story".
Proof. repeat split; reflexivity. Qed.

(** ** Extraction and validation *)

Section ExtractFacts.
Import Pandas Extract.

Lemma indices_of_raises (names cols : list string) (e : Exn) :
  indices_of names cols = Raise e -> exists name, e = KeyError name.
Proof.
  induction names as [|n names IH]; [done|]. simpl.
  destruct (index_of n cols); [|intros [= <-]; eauto].
  destruct (indices_of names cols); [done|]. intros [= <-]. by apply IH.
Qed.

(** C3: with the links file missing, extraction raises [KeyError] when it
    selects the link columns from the empty frame, whatever the other two
    files hold; with the movies file missing it raises [KeyError] at the
    latest in the join.  Only a missing ratings file is passed on as an
    empty table, and the validation of the next stage raises [KeyError] on
    it. *)
Theorem extraction_raises_on_missing_table :
  (forall movies ratings,
      extract_csv_data {| MOVIES_CSV := movies; RATINGS_CSV := ratings; LINKS_CSV := None |}
      = Raise (KeyError "movieId")) /\
  (forall ratings links,
      exists name,
        extract_csv_data {| MOVIES_CSV := None; RATINGS_CSV := ratings; LINKS_CSV := links |}
        = Raise (KeyError name)) /\
  (forall movies links extracted,
      extract_csv_data {| MOVIES_CSV := movies; RATINGS_CSV := None; LINKS_CSV := links |}
      = Return extracted ->
      ratings extracted = empty_frame) /\
  (forall parse_number seconds_to_instant,
      Transform._validate_ratings_dataframe parse_number seconds_to_instant empty_frame
      = Raise (KeyError "userId")).
Proof.
  split; [done|]. split; [|split; [|done]].
  - intros ratings links. unfold extract_csv_data. simpl.
    unfold select. destruct (indices_of _ _) as [ixs|e] eqn:E.
    + by exists "movieId".
    + apply indices_of_raises in E as [name ->]. by exists name.
  - intros movies links extracted. unfold extract_csv_data. simpl.
    destruct (select _ _); [|done]. simpl.
    destruct (merge_left_one_to_one _ _ _); [|done]. simpl.
    destruct (getitem _ "title"); [|done]. simpl.
    destruct (getitem _ "imdbId"); [|done]. simpl.
    by intros [= <-].
Qed.
End ExtractFacts.

Lemma extraction_raises_on_missing_table_witness :
  Extract.ratings
    {| Extract.movies :=
         {| Pandas.columns := ["movieId"; "title"; "genres"; "imdbId"; "year"];
            Pandas.rows := [[PyInt 1; PyStr "Toy Story (1995)";
                             PyStr "Adventure|Animation|Children";
                             PyStr "tt0114709"; PyInt 1995]] |};
       Extract.ratings := Pandas.empty_frame |}
  = Pandas.empty_frame.
Proof.
  apply (proj1 (proj2 (proj2 extraction_raises_on_missing_table))
           (Some toy_story_movies) (Some toy_story_links)).
  vm_compute. reflexivity.
Defined.

Example extraction_of_toy_story :
  Extract.extract_csv_data
    {| Extract.MOVIES_CSV := Some toy_story_movies; Extract.RATINGS_CSV := None;
       Extract.LINKS_CSV := Some toy_story_links |}
  = Return
      {| Extract.movies :=
           {| Pandas.columns := ["movieId"; "title"; "genres"; "imdbId"; "year"];
              Pandas.rows := [[PyInt 1; PyStr "Toy Story (1995)";
                               PyStr "Adventure|Animation|Children";
                               PyStr "tt0114709"; PyInt 1995]] |};
         Extract.ratings := Pandas.empty_frame |}.
Proof. vm_compute. reflexivity. Qed.

Example extraction_of_duplicate_links :
  Extract.extract_csv_data
    {| Extract.MOVIES_CSV := Some toy_story_movies; Extract.RATINGS_CSV := None;
       Extract.LINKS_CSV := Some duplicate_links |}
  = Raise (MergeError "Merge keys are not unique; not a one-to-one merge").
Proof. vm_compute. reflexivity. Qed.

Section ValidationFacts.
Import Pandas Transform.
Variable parse_number : string -> option Q.
Variable seconds_to_instant : Q -> option Z.

(** C5: the two first rows of the table are one rating event whose
    timestamp is written as [100] and as [100.0].  Duplicates are dropped
    before the timestamps are coerced, so both rows survive, and the
    validated table holds two rows with the same user, movie and
    instant. *)
Theorem validation_keeps_equal_instants (t : Z) :
  parse_number "100" = Some (100 # 1) ->
  parse_number "100.0" = Some (100 # 1) ->
  parse_number "abc" = None ->
  seconds_to_instant (100 # 1) = Some t ->
  _validate_ratings_dataframe parse_number seconds_to_instant ratings_with_text_timestamps
  = Return
      {| columns := ["userId"; "movieId"; "rating"; "timestamp"];
         rows := [ [PyInt 1; PyInt 1; PyFloat (4 # 1); Timestamp t];
                   [PyInt 1; PyInt 1; PyFloat (9 # 2); Timestamp t] ] |}.
Proof.
  intros H1 H2 H3 H4. vm_compute.
  rewrite H1, H2, H3. vm_compute. rewrite H4. reflexivity.
Qed.
End ValidationFacts.

Lemma validation_keeps_equal_instants_witness :
  Transform._validate_ratings_dataframe parse_decimal nanoseconds ratings_with_text_timestamps
  = Return
      {| Pandas.columns := ["userId"; "movieId"; "rating"; "timestamp"];
         Pandas.rows := [ [PyInt 1; PyInt 1; PyFloat (4 # 1); Timestamp 100000000000];
                          [PyInt 1; PyInt 1; PyFloat (9 # 2); Timestamp 100000000000] ] |}.
Proof.
  apply (validation_keeps_equal_instants parse_decimal nanoseconds 100000000000);
    vm_compute; reflexivity.
Defined.

Example validation_of_scenario_ratings :
  Transform._validate_ratings_dataframe parse_decimal nanoseconds scenario_ratings
  = Return
      {| Pandas.columns := ["userId"; "movieId"; "rating"; "timestamp"];
         Pandas.rows := [[PyInt 1; PyInt 1; PyFloat (4 # 1); Timestamp 964982703000000000]] |}.
Proof. vm_compute. reflexivity. Qed.

(** * Further properties *)

(** ** The loaders *)

Section ChunkSlices.
Import Chunking.
Context {A : Type}.

Lemma chunk_count (n b : nat) :
  (1 <= b)%nat -> (1 <= n)%nat -> ((n + b - 1) / b = S ((n - b + b - 1) / b))%nat.
Proof.
  intros Hb Hn. destruct (Nat.le_gt_cases b n) as [H|H].
  - replace (n + b - 1)%nat with ((n - b + b - 1) + 1 * b)%nat by lia.
    rewrite Nat.div_add by lia. lia.
  - replace (n - b + b - 1)%nat with (b - 1)%nat by lia.
    rewrite (Nat.div_small (b - 1) b) by lia.
    replace (n + b - 1)%nat with ((n - 1) + 1 * b)%nat by lia.
    rewrite Nat.div_add, Nat.div_small by lia. done.
Qed.

(** X1: with a batch size [b >= 1] the chunks are the consecutive slices
    of the rows at offsets 0, b, 2b, ...: there are ceil(n / b) of them
    for n rows, the i-th one holds the rows from position i*b up to
    (i+1)*b, so every chunk but the last holds exactly [b] rows. *)
Theorem chunks_are_consecutive_slices (rows : list A) (b : nat) :
  (1 <= b)%nat ->
  _chunked rows b
  = (fun i => take b (drop (i * b) rows)) <$> seq 0 ((length rows + b - 1) / b).
Proof.
  intros Hb. remember (length rows) as n eqn:Hn. revert rows Hn.
  induction n as [n IH] using lt_wf_ind. intros rows ->.
  rewrite _chunked_step. destruct rows as [|x rows].
  { rewrite take_nil. simpl. by rewrite Nat.div_small by lia. }
  destruct b as [|b]; [lia|]. cbn [take].
  rewrite chunk_count by (simpl; lia). cbn [seq fmap list_fmap]. f_equal.
  rewrite <- fmap_S_seq, <- list_fmap_compose.
  rewrite (IH (length (drop (S b) (x :: rows))) ltac:(rewrite length_drop; simpl; lia) _ eq_refl).
  rewrite length_drop. apply list_fmap_ext. intros _ i _. simpl.
  rewrite drop_drop. do 2 f_equal; lia.
Qed.
End ChunkSlices.

Lemma chunks_are_consecutive_slices_witness :
  Chunking._chunked [1; 2; 3; 4; 5] 2 = [[1; 2]; [3; 4]; [5]].
Proof. apply (chunks_are_consecutive_slices [1; 2; 3; 4; 5] 2). lia. Defined.

Section ZeroBatch.
Import Chunking Database Schema Load LoadSpec Pipeline.

(** X2: with a batch size of 0 the first chunk is empty and ends the
    loop: each loader executes no statement, whatever its records are,
    commits the connection as it stands and returns 0. *)
Theorem zero_batch_size_loads_nothing (rs : RecordSet) (c : Connection Store) :
  insert_movies (rs_movies rs) 0 c = (commit c, Return 0%nat) /\
  insert_genres (rs_genres rs) 0 c = (commit c, Return 0%nat) /\
  insert_movie_genres (rs_movie_genres rs) 0 c = (commit c, Return 0%nat) /\
  insert_ratings (rs_ratings rs) 0 c = (commit c, Return 0%nat) /\
  insert_movie_details (rs_movie_details rs) 0 c = (commit c, Return 0%nat) /\
  load_all rs 0 c = (commit c, Return (0, 0, 0, 0, 0)%nat).
Proof.
  unfold load_all, then_load, insert_movies, insert_genres, insert_movie_genres,
    insert_ratings, insert_movie_details.
  rewrite !run_insert_zero. repeat split.
Qed.

End ZeroBatch.

Section LoaderCounts.
Import Chunking Database Schema Load LoadSpec Pipeline.

(** A statement is counted by a measure of the store when each execution
    raises the measure by the number of rows it reports as changed. *)
Lemma executemany_counted {Row : Type} (q : Statement Store Row) (measure : Store -> nat) :
  (forall row s s' n, q row s = Return (s', n) -> measure s' = (measure s + n)%nat) ->
  forall rows c c' u, executemany q rows c = (c', Return u) ->
    (measure (pending c') + total_changes c = measure (pending c) + total_changes c')%nat /\
    (total_changes c <= total_changes c')%nat.
Proof.
  intros Hq. induction rows as [|row rows IH]; intros c c' u.
  { intros [= <-]. lia. }
  unfold executemany in *. cbn [for_each]. unfold execute at 1.
  destruct (q row (pending c)) as [[s' n]|e] eqn:E; [|done].
  intros H. apply IH in H. simpl in H. apply Hq in E. lia.
Qed.

Lemma run_insert_counted {Row : Type} (q : Statement Store Row) (measure : Store -> nat) :
  (forall row s s' n, q row s = Return (s', n) -> measure s' = (measure s + n)%nat) ->
  forall rows (b : nat) c c' n, (1 <= b)%nat ->
    run_insert q rows b c = (c', Return n) ->
    measure (committed c') = (measure (pending c) + n)%nat.
Proof.
  intros Hq rows b c c' n Hb. unfold run_insert, transaction.
  rewrite _execute_chunks_rows by done.
  destruct (executemany q rows c) as [c1 [[]|e]] eqn:E; [|done].
  intros [= <- <-]. apply (executemany_counted q measure Hq) in E. simpl. lia.
Qed.

(** X3: what the four insert-if-absent loaders return is the number of
    rows their table has gained: rows whose key was present, or repeats
    an earlier row of the same call, are not counted. *)
Theorem inserted_counts_new_rows (b : nat) (c c' : Connection Store) (n : nat) :
  (1 <= b)%nat ->
  (forall recs, insert_movies recs b c = (c', Return n) ->
     size (movies (committed c')) = (size (movies (pending c)) + n)%nat) /\
  (forall names, insert_genres names b c = (c', Return n) ->
     size (genres (committed c')) = (size (genres (pending c)) + n)%nat) /\
  (forall recs, insert_movie_genres recs b c = (c', Return n) ->
     size (movie_genres (committed c')) = (size (movie_genres (pending c)) + n)%nat) /\
  (forall recs, insert_ratings recs b c = (c', Return n) ->
     size (ratings (committed c')) = (size (ratings (pending c)) + n)%nat).
Proof.
  intros Hb. repeat split; intros recs H.
  - revert H. apply (run_insert_counted sql_insert_movie (fun s => size (movies s))); [|done].
    intros [[[movieId title] year] imdbId] s s' k. unfold sql_insert_movie.
    destruct (movies s !! movieId) eqn:E; intros [= <- <-]; [lia|].
    simpl. rewrite map_size_insert_None by done. lia.
  - revert H. apply (run_insert_counted sql_insert_genre (fun s => size (genres s))); [|done].
    intros genreName s s' k. unfold sql_insert_genre.
    destruct (genres s !! genreName) eqn:E; intros [= <- <-]; [lia|].
    simpl. rewrite map_size_insert_None by done. lia.
  - revert H.
    apply (run_insert_counted sql_insert_movie_genre (fun s => size (movie_genres s))); [|done].
    intros [movieId genreId] s s' k. unfold sql_insert_movie_genre.
    destruct (bool_decide _) eqn:E; [intros [= <- <-]; lia|].
    apply bool_decide_eq_false in E.
    destruct (_ && _); [|done]. intros [= <- <-]. simpl.
    rewrite size_union by set_solver. rewrite size_singleton. lia.
  - revert H. apply (run_insert_counted sql_insert_rating (fun s => size (ratings s))); [|done].
    intros [[[userId movieId] rating] timestamp] s s' k. unfold sql_insert_rating.
    destruct (ratings s !! _) eqn:E; [intros [= <- <-]; lia|].
    destruct (movie_exists s movieId); [|done]. intros [= <- <-].
    simpl. rewrite map_size_insert_None by done. lia.
Qed.

(** X4: the details loader counts every record it writes, also one that
    replaces the row of an earlier record: it returns the number of
    records, while the table holds one row per movie. *)
Theorem detail_count_is_number_of_records (recs : list DetailRecord) (b : nat)
    (c c' : Connection Store) (n : nat) :
  (1 <= b)%nat ->
  insert_movie_details recs b c = (c', Return n) ->
  n = length recs /\
  (size (movie_details (committed c')) <= size (movie_details (pending c)) + n)%nat /\
  forall rec, rec ∈ recs -> is_Some (movie_details (committed c') !! d_movieId rec).
Proof.
  intros Hb H. unfold insert_movie_details in H.
  pose proof (transaction_execute_chunks sql_replace_movie_detail (detail_rows recs) b c Hb) as Ht.
  unfold run_insert in H.
  destruct (transaction _ c) as [c1 [[]|e]] eqn:E; [|done].
  injection H as <- <-. destruct Ht as [Ha Hp].
  unfold transaction in E. rewrite _execute_chunks_rows in E by done.
  destruct (executemany _ (detail_rows recs) c) as [c2 [[]|e]] eqn:E2; [|done].
  injection E as <-. simpl in *.
  assert (forall rows c c2, executemany sql_replace_movie_detail rows c = (c2, Return tt) ->
            total_changes c2 = (total_changes c + length rows)%nat /\
            (size (movie_details (pending c2)) <= size (movie_details (pending c)) + length rows)%nat /\
            (forall k, is_Some (movie_details (pending c) !! k) \/ k ∈ rows.*1 ->
                       is_Some (movie_details (pending c2) !! k))) as Hrows.
  { clear. induction rows as [|[m d] rows IH]; intros c c2.
    { intros [= <-]. simpl. split; [lia|]. split; [lia|].
      intros k [?|?]; [done|]. by apply elem_of_nil in H. }
    unfold executemany in *. cbn [for_each]. unfold execute at 1.
    unfold sql_replace_movie_detail at 1.
    destruct (movie_exists (pending c) m); [|done].
    intros H. apply IH in H as (H1 & H2 & H3). simpl in *.
    rewrite insert_delete_eq in H2, H3.
    split; [lia|]. split.
    - pose proof (map_size_insert m d (movie_details (pending c))) as Hs.
      destruct (movie_details (pending c) !! m); simpl in Hs; lia.
    - intros k Hk. apply H3. destruct (decide (k = m)) as [->|Hne].
      + left. rewrite lookup_insert_eq. by eexists.
      + destruct Hk as [Hk|Hk].
        * left. by rewrite lookup_insert_ne.
        * right. apply elem_of_cons in Hk as [?|?]; done. }
  destruct (Hrows _ _ _ E2) as (H1 & H2 & H3).
  unfold detail_rows in *. rewrite length_map in *.
  split; [lia|]. split; [lia|].
  intros rec Hrec. apply H3. right.
  apply list_elem_of_fmap. exists (d_movieId rec, d_fields rec). split; [done|].
  apply list_elem_of_fmap. by exists rec.
Qed.
End LoaderCounts.

Lemma inserted_counts_new_rows_witness :
  let c := LoadSpec.connect Schema.empty_store in
  let out := Load.insert_movies (Load.rs_movies toy_story_records) 2 c in
  size (Schema.movies (Database.committed out.1))
  = (size (Schema.movies (Database.pending c)) + 1)%nat.
Proof.
  intros c out.
  apply (proj1 (inserted_counts_new_rows 2 c out.1 1 ltac:(lia))
           (Load.rs_movies toy_story_records)).
  vm_compute. reflexivity.
Defined.

Lemma detail_count_is_number_of_records_witness :
  let c := LoadSpec.connect store_toy_story in
  let out := Load.insert_movie_details toy_story_details_twice 2 c in
  2%nat = length toy_story_details_twice /\
  (size (Schema.movie_details (Database.committed out.1))
   <= size (Schema.movie_details (Database.pending c)) + 2)%nat /\
  forall rec, rec ∈ toy_story_details_twice ->
    is_Some (Schema.movie_details (Database.committed out.1) !! Load.d_movieId rec).
Proof.
  intros c out.
  apply (detail_count_is_number_of_records toy_story_details_twice 2 c out.1 2); [lia|].
  vm_compute. reflexivity.
Defined.

Section LoaderSuccess.
Import Chunking Database Schema Load LoadSpec Pipeline.

Lemma run_insert_succeeded {Row : Type} (q : Statement Store Row) (rows : list Row)
    (b : nat) (c : Connection Store) :
  (1 <= b)%nat ->
  succeeded (run_insert q rows b c).2 = true <-> is_Some (apply_rows q rows (pending c)).
Proof.
  intros Hb. unfold run_insert.
  pose proof (transaction_execute_chunks q rows b c Hb) as H.
  destruct (transaction _ c) as [c1 [[]|e]]; simpl.
  - destruct H as [-> _]. split; [by eexists|done].
  - destruct H as [-> _]. split; [done|]. by intros [? ?].
Qed.



Lemma genre_id_of_name (s : Store) (name : string) (genreId : Z) :
  genres s !! name = Some genreId -> genre_id_exists s genreId = true.
Proof.
  intros H. apply bool_decide_eq_true. apply Exists_exists.
  exists (name, genreId). split; [|done]. by apply elem_of_map_to_list.
Qed.

Lemma apply_movie_genre_rows (rows : list (Z * Z)) :
  forall s,
    Forall (fun row => genre_id_exists s row.2 = true) rows ->
    is_Some (apply_rows sql_insert_movie_genre rows s) <->
    Forall (fun row => row ∈ movie_genres s \/ movie_exists s row.1 = true) rows.
Proof.
  induction rows as [|[m g] rows IH]; intros s Hg.
  { simpl. split; [constructor | by eexists]. }
  apply Forall_cons in Hg as [Hg Hgs]. cbn [fst snd] in Hg.
  cbn [apply_rows]. unfold sql_insert_movie_genre at 1.
  rewrite Forall_cons. cbn [fst snd].
  destruct (bool_decide ((m, g) ∈ movie_genres s)) eqn:E.
  - apply bool_decide_eq_true in E. rewrite IH by done.
    split; [intros H; by split; [left|] | by intros [_ H]].
  - apply bool_decide_eq_false in E. rewrite Hg, andb_true_r.
    destruct (movie_exists s m) eqn:Em.
    + rewrite IH by done. split.
      * intros H. split; [by right|]. eapply Forall_impl; [exact H|].
        intros [m' g'] [Hk|Hm]; cbn [fst snd] in *; [|by right].
        simpl in Hk. apply elem_of_union in Hk as [Hk|Hk]; [|by left].
        apply elem_of_singleton in Hk as [= -> ->]. by right.
      * intros [_ H]. eapply Forall_impl; [exact H|].
        intros [m' g'] [Hk|Hm]; cbn [fst snd] in *; [|by right].
        left. simpl. apply elem_of_union. by right.
    + split; [by intros [? ?]|]. intros [[?|?] _]; congruence.
Qed.

(** X6: the movie-genre loader writes a pair for exactly the records
    whose genre name the genre table knows under an id other than 0, the
    other records being dropped without notice; it can fail only on a
    movie: it succeeds exactly when every pair it writes is present
    already or is for a movie the movie table holds. *)
Theorem insert_movie_genres_succeeds_iff (recs : list MovieGenreRecord) (b : nat)
    (c : Connection Store) :
  (1 <= b)%nat ->
  let rows := movie_genre_rows (genres (pending c)) recs in
  (forall movieId genreId, (movieId, genreId) ∈ rows <->
     exists rec, rec ∈ recs /\ mg_movieId rec = movieId /\
       genres (pending c) !! genreName rec = Some genreId /\ genreId <> 0) /\
  (succeeded (insert_movie_genres recs b c).2 = true <->
   Forall (fun row => row ∈ movie_genres (pending c) \/
                      movie_exists (pending c) row.1 = true) rows).
Proof.
  intros Hb rows.
  assert (forall movieId genreId, (movieId, genreId) ∈ rows <->
     exists rec, rec ∈ recs /\ mg_movieId rec = movieId /\
       genres (pending c) !! genreName rec = Some genreId /\ genreId <> 0) as Hrows.
  { intros m g. unfold rows, movie_genre_rows. rewrite list_elem_of_omap. split.
    - intros (rec & Hrec & H). exists rec. split; [done|].
      destruct (genres (pending c) !! genreName rec) as [gid|]; [|done].
      destruct (Z.eqb_spec gid 0); [done|]. by injection H as <- <-.
    - intros (rec & Hrec & <- & Hg & Hne). exists rec. split; [done|].
      rewrite Hg. by destruct (Z.eqb_spec g 0). }
  split; [done|].
  unfold insert_movie_genres, _genre_map. rewrite run_insert_succeeded by done.
  apply apply_movie_genre_rows. apply Forall_forall. intros [m g] Hin.
  apply Hrows in Hin as (rec & _ & _ & Hg & _). by apply genre_id_of_name in Hg.
Qed.
End LoaderSuccess.


Lemma insert_movie_genres_succeeds_iff_witness :
  let c := LoadSpec.connect store_with_genre in
  let recs := [ {| Load.mg_movieId := 1; Load.genreName := "Adventure" |};
                {| Load.mg_movieId := 1; Load.genreName := "Western" |} ] in
  Load.movie_genre_rows (Schema.genres (Database.pending c)) recs = [(1, 1)] /\
  Pipeline.succeeded (Load.insert_movie_genres recs 1 c).2 = true.
Proof.
  intros c recs. split; [reflexivity|].
  apply (proj2 (insert_movie_genres_succeeds_iff recs 1 c ltac:(lia))).
  apply Forall_cons. split; [|apply Forall_nil_2]. right. reflexivity.
Defined.

Section Integrity.
Import Database Schema Load LoadSpec Pipeline Etl.

Lemma filter_nil {X : Type} (f : X -> bool) (l : list X) :
  List.filter f l = [] <-> forall x, x ∈ l -> f x = false.
Proof.
  induction l as [|x l IH]; simpl.
  - split; [|done]. intros _ x Hx. by apply elem_of_nil in Hx.
  - destruct (f x) eqn:E.
    + split; [done|]. intros H. specialize (H x (list_elem_of_here _ _)). congruence.
    + rewrite IH. split.
      * intros H y [->|Hy]%elem_of_cons; auto.
      * intros H y Hy. apply H. by apply list_elem_of_further.
Qed.

Lemma fmap_eq_nil {X Y : Type} (f : X -> Y) (l : list X) : f <$> l = [] <-> l = [].
Proof. split; [apply fmap_nil_inv | by intros ->]. Qed.

Lemma foreign_key_check_nil (s : Store) :
  foreign_key_check s = [] <-> referential_integrity s.
Proof.
  unfold foreign_key_check, referential_integrity.
  rewrite !app_nil, !fmap_eq_nil, !filter_nil.
  split; intros (H1 & H2 & H3); (split; [|split]).
  - intros m g Hin. specialize (H1 (m, g)). simpl in H1.
    apply negb_false_iff, andb_true_iff in H1; [done|]. by apply elem_of_elements.
  - intros u m t [r Hin]. specialize (H2 (u, m, t)). simpl in H2.
    apply negb_false_iff in H2; [done|].
    apply list_elem_of_fmap. exists (u, m, t, r). split; [done|].
    by apply elem_of_map_to_list.
  - intros m [d Hin]. specialize (H3 m). apply negb_false_iff in H3; [done|].
    apply list_elem_of_fmap. exists (m, d). split; [done|]. by apply elem_of_map_to_list.
  - intros [m g] Hin. apply elem_of_elements in Hin. destruct (H1 m g Hin) as [-> ->]. done.
  - intros [[u m] t] Hin. apply list_elem_of_fmap in Hin as ([k r] & Hk & Hin).
    simpl in Hk. subst k.
    apply elem_of_map_to_list in Hin. rewrite (H2 u m t); [done|]. by eexists.
  - intros m Hin. apply list_elem_of_fmap in Hin as ([k d] & Hk & Hin).
    simpl in Hk. subst k.
    apply elem_of_map_to_list in Hin. rewrite (H3 m); [done|]. by eexists.
Qed.

Lemma movie_exists_insert (s : Store) (k m : Z) (row : string * option Z * option string) :
  movie_exists s m = true -> movie_exists (set_movies s (<[k := row]> (movies s))) m = true.
Proof.
  unfold movie_exists. intros H%bool_decide_eq_true. apply bool_decide_eq_true. simpl.
  destruct (decide (k = m)) as [->|Hne].
  - rewrite lookup_insert_eq. by eexists.
  - by rewrite lookup_insert_ne.
Qed.

Lemma genre_id_exists_insert (s : Store) (name : string) (id next g : Z) :
  genres s !! name = None ->
  genre_id_exists s g = true ->
  genre_id_exists (set_genres s (<[name := id]> (genres s)) next) g = true.
Proof.
  unfold genre_id_exists. intros Hnone H%bool_decide_eq_true. apply bool_decide_eq_true.
  apply Exists_exists in H as ([k v] & Hin & Hv). apply Exists_exists.
  exists (k, v). split; [|done]. apply elem_of_map_to_list in Hin. apply elem_of_map_to_list.
  simpl. rewrite lookup_insert_ne; [done|]. intros ->. congruence.
Qed.

Lemma insert_movie_keeps_integrity row (s s' : Store) (n : nat) :
  sql_insert_movie row s = Return (s', n) -> referential_integrity s -> referential_integrity s'.
Proof.
  destruct row as [[[movieId title] year] imdbId]. unfold sql_insert_movie.
  destruct (movies s !! movieId); intros [= <- <-]; [done|].
  intros (H1 & H2 & H3). split; [|split].
  - intros m g Hin. destruct (H1 m g Hin) as [Hm Hg]. split; [|done].
    by apply movie_exists_insert.
  - intros u m t Hin. by apply movie_exists_insert, (H2 u m t).
  - intros m Hin. by apply movie_exists_insert, H3.
Qed.

Lemma insert_genre_keeps_integrity row (s s' : Store) (n : nat) :
  sql_insert_genre row s = Return (s', n) -> referential_integrity s -> referential_integrity s'.
Proof.
  unfold sql_insert_genre.
  destruct (genres s !! row) eqn:E; intros [= <- <-]; [done|].
  intros (H1 & H2 & H3). split; [|split; [exact H2 | exact H3]].
  intros m g Hin. destruct (H1 m g Hin) as [Hm Hg]. split; [done|].
  by apply genre_id_exists_insert.
Qed.

Lemma insert_movie_genre_keeps_integrity row (s s' : Store) (n : nat) :
  sql_insert_movie_genre row s = Return (s', n) ->
  referential_integrity s -> referential_integrity s'.
Proof.
  destruct row as [movieId genreId]. unfold sql_insert_movie_genre.
  destruct (bool_decide _); [by intros [= <- <-]|].
  destruct (movie_exists s movieId && genre_id_exists s genreId) eqn:E; [|done].
  apply andb_true_iff in E. intros [= <- <-].
  intros (H1 & H2 & H3). split; [|split; [exact H2 | exact H3]].
  intros m g Hin. simpl in Hin. apply elem_of_union in Hin as [Hin|Hin].
  - apply elem_of_singleton in Hin as [= -> ->]. exact E.
  - exact (H1 m g Hin).
Qed.

Lemma insert_rating_keeps_integrity row (s s' : Store) (n : nat) :
  sql_insert_rating row s = Return (s', n) ->
  referential_integrity s -> referential_integrity s'.
Proof.
  destruct row as [[[userId movieId] rating] timestamp]. unfold sql_insert_rating.
  destruct (ratings s !! _); [by intros [= <- <-]|].
  destruct (movie_exists s movieId) eqn:E; [|done]. intros [= <- <-].
  intros (H1 & H2 & H3). split; [exact H1 | split; [|exact H3]].
  intros u m t Hin. simpl in Hin.
  destruct (decide ((userId, movieId, timestamp) = (u, m, t))) as [[= -> -> ->]|Hne].
  - exact E.
  - rewrite lookup_insert_ne in Hin by done. exact (H2 u m t Hin).
Qed.

Lemma replace_detail_keeps_integrity row (s s' : Store) (n : nat) :
  sql_replace_movie_detail row s = Return (s', n) ->
  referential_integrity s -> referential_integrity s'.
Proof.
  destruct row as [movieId detail]. unfold sql_replace_movie_detail.
  destruct (movie_exists s movieId) eqn:E; [|done]. intros [= <- <-].
  intros (H1 & H2 & H3). split; [exact H1 | split; [exact H2|]].
  intros m Hin. simpl in Hin. rewrite insert_delete_eq in Hin.
  destruct (decide (movieId = m)) as [->|Hne]; [exact E|].
  rewrite lookup_insert_ne in Hin by done. exact (H3 m Hin).
Qed.

Lemma load_stage_keeps_integrity {Row : Type} (q : Statement Store Row)
    (rows : Store -> list Row) :
  (forall row s s' n, q row s = Return (s', n) ->
     referential_integrity s -> referential_integrity s') ->
  forall s, referential_integrity s -> referential_integrity (load_stage q rows s).1.
Proof.
  intros Hq s Hs. unfold load_stage.
  destruct (apply_rows q (rows s) s) as [s'|] eqn:E; [|done]. simpl.
  revert E Hs. generalize (rows s). intros l. revert s.
  induction l as [|row l IH]; intros s; simpl; [by intros [= <-]|].
  destruct (q row s) as [[s1 n]|e] eqn:E; [|done].
  intros H Hs. apply (IH s1 H). by apply (Hq row s s1 n).
Qed.

Lemma run_stages_keeps {Store : Type} (P : Store -> Prop) (stages : list (Stage Store)) :
  Forall (fun stage => forall s, P s -> P (stage s).1) stages ->
  forall s, P s -> P (run_stages stages s).1.
Proof.
  induction 1 as [|stage stages Hst _ IH]; intros s Hs; [done|].
  simpl. specialize (Hst s Hs). destruct (stage s) as [s' []]; [by apply IH | done].
Qed.

(** X7: the loaders never leave a child row without its parent rows.
    From a database whose foreign-key check reports nothing, after a run
    of the five loads, whether it succeeded or stopped at a failing
    load, the check of [_verify_connection] reports nothing and no
    warning is logged. *)
Theorem loads_keep_referential_integrity (rs : RecordSet) (b : nat) (c : Connection Store) :
  (1 <= b)%nat ->
  pending c = committed c ->
  foreign_key_check (committed c) = [] ->
  _verify_connection (load_all rs b c).1 = false.
Proof.
  intros Hb Hc Hfk. destruct (load_all_follows rs b Hb c Hc) as (Hp & Hcom & _).
  unfold _verify_connection. rewrite Hp, Hcom.
  assert (foreign_key_check (run_stages (load_stages rs) (committed c)).1 = []) as ->; [|done].
  apply foreign_key_check_nil. apply foreign_key_check_nil in Hfk.
  apply run_stages_keeps; [|done]. unfold load_stages.
  repeat apply Forall_cons_2; try apply Forall_nil_2; apply load_stage_keeps_integrity.
  - apply insert_movie_keeps_integrity.
  - apply insert_genre_keeps_integrity.
  - apply insert_movie_genre_keeps_integrity.
  - apply insert_rating_keeps_integrity.
  - apply replace_detail_keeps_integrity.
Qed.
End Integrity.

Lemma loads_keep_referential_integrity_witness :
  Etl._verify_connection
    (Load.load_all toy_story_records 2 (LoadSpec.connect Schema.empty_store)).1 = false.
Proof. apply (loads_keep_referential_integrity toy_story_records 2); [lia | done | done]. Defined.

(** ** The enrichment client *)

Section ClientMore.
Import ApiClient Etl.
Variable transport : nat -> string -> Response.


(** X9: a structured negative answer, after [n] transport failures, ends the
    fetch at once: no payload is returned, the marker with the service's
    reason (or "unknown error") is cached and persisted once, no further
    request is sent and no rate-limit delay is slept. *)
Theorem negative_answer_is_final (self : Client) (imdb_id : string) (n : nat) (payload : Payload) :
  Z.of_nat n < max_retries self ->
  _cache self !! imdb_id = None ->
  (forall j, (j < n)%nat -> transport (requests self + j) imdb_id = TransportError) ->
  transport (requests self + n) imdb_id = Body payload ->
  payload !! "Response" = Some "False" ->
  let result := fetch_movie transport imdb_id self in
  let marker := negative (default "unknown error" (payload !! "Error")) in
  result.1 = None /\
  _cache result.2 = <[imdb_id := marker]> (_cache self) /\
  requests result.2 = (requests self + n + 1)%nat /\
  events result.2 = events self ++
    flat_map (fun k => [Request imdb_id; Backoff (backoff_delay k)]) (seqZ 1 (Z.of_nat n)) ++
    [Request imdb_id; Persist (<[imdb_id := marker]> (_cache self))].
Proof.
  intros Hn Hcache Hfail Hbody Hneg result marker.
  destruct (fetch_movie_after_failures transport self imdb_id n payload Hn Hcache Hfail Hbody)
    as (H1 & H2 & H3 & _ & H5).
  fold result in H1, H2, H3, H5. unfold cached_entry, is_negative in *.
  rewrite bool_decide_eq_true_2 in * by done.
  rewrite app_nil_r in H5. done.
Qed.

Lemma attempt_loop_budget (imdb_id : string) (attempts : list Z) :
  forall self,
    let out := attempt_loop transport imdb_id attempts self in
    (requests self <= requests out.2 <= requests self + length attempts)%nat /\
    (forall other, other <> imdb_id -> _cache out.2 !! other = _cache self !! other) /\
    (requests out.2 = requests self -> attempts = []) /\
    (forall p, out.1 = Some p -> is_negative p = false).
Proof.
  induction attempts as [|a attempts IH]; intros self out; subst out.
  { simpl. repeat split; try done; lia. }
  cbn [attempt_loop]. unfold get.
  destruct (transport (requests self) imdb_id) as [|body].
  - destruct (IH (_backoff a (sent (emit (Request imdb_id) self)))) as (H1 & H2 & H3 & H4).
    simpl in *. split; [lia|]. split; [done|]. split; [lia|done].
  - destruct (is_negative body) eqn:E; simpl.
    + split; [lia|]. split; [|split; [lia|done]].
      intros other Hne. by rewrite lookup_insert_ne.
    + split; [lia|]. split; [|split; [lia|by intros p [= <-]]].
      intros other Hne. by rewrite lookup_insert_ne.
Qed.

(** X10: one fetch sends at most [max_retries] requests, and none for an
    id the cache holds; it sends at least one for an id the cache does
    not hold when [max_retries >= 1], and with [max_retries <= 0] it
    gives up at once: no request, no event, no result.  It touches no
    cache entry but the one of the id it is asked for. *)
Theorem fetch_movie_request_budget (self : Client) (imdb_id : string) :
  let out := fetch_movie transport imdb_id self in
  (requests self <= requests out.2 <= requests self + Z.to_nat (max_retries self))%nat /\
  (is_Some (_cache self !! imdb_id) -> out.2 = self) /\
  (_cache self !! imdb_id = None -> 1 <= max_retries self ->
     (requests self < requests out.2)%nat) /\
  (_cache self !! imdb_id = None -> max_retries self <= 0 -> out = (None, self)) /\
  (forall other, other <> imdb_id -> _cache out.2 !! other = _cache self !! other).
Proof.
  intros out. subst out. unfold fetch_movie.
  destruct (_cache self !! imdb_id) as [entry|] eqn:E.
  { simpl. split; [lia|]. repeat split; done. }
  destruct (attempt_loop_budget imdb_id (seqZ 1 (max_retries self)) self) as (H1 & H2 & H3 & _).
  rewrite length_seqZ in H1. split; [done|]. split; [by intros [? ?]|].
  split; [|split; [|done]].
  - intros _ Hr.
    destruct (decide (requests (attempt_loop transport imdb_id (seqZ 1 (max_retries self)) self).2
                      = requests self)) as [Heq|Hne]; [|lia].
    apply H3 in Heq. apply (f_equal length) in Heq. rewrite length_seqZ in Heq.
    simpl in Heq. lia.
  - intros _ Hr. rewrite seqZ_nil by lia. done.
Qed.
Lemma attempt_loop_some (imdb_id : string) (attempts : list Z) (p : Payload) :
  forall self, (attempt_loop transport imdb_id attempts self).1 = Some p ->
    _cache (attempt_loop transport imdb_id attempts self).2 !! imdb_id = Some p.
Proof.
  induction attempts as [|a attempts IH]; intros self; [done|].
  cbn [attempt_loop]. unfold get.
  destruct (transport (requests self) imdb_id) as [|body]; [apply IH|].
  destruct (is_negative body); [done|]. simpl. intros [= ->]. apply lookup_insert_eq.
Qed.

(** What a fetch returns is what the cache holds for the id afterwards. *)
Lemma fetch_movie_some (imdb_id : string) (p : Payload) (self : Client) :
  (fetch_movie transport imdb_id self).1 = Some p ->
  _cache (fetch_movie transport imdb_id self).2 !! imdb_id = Some p.
Proof.
  unfold fetch_movie. destruct (_cache self !! imdb_id) eqn:E.
  - simpl. by intros [= ->].
  - apply attempt_loop_some.
Qed.

Lemma bulk_loop_invariant (imdb_ids : list string) (limit : option Z) :
  forall (counter : Z) (result : gmap string Payload) (self : Client),
    let out := bulk_loop transport imdb_ids limit counter result self in
    (forall id p, out.1 !! id = Some p ->
       result !! id = Some p \/
       (id <> "" /\ id ∈ imdb_ids /\ p <> ∅ /\ _cache out.2 !! id = Some p)) /\
    (forall id e, _cache self !! id = Some e -> _cache out.2 !! id = Some e) /\
    (forall l, limit = Some l -> Z.of_nat (size result) <= counter ->
       Z.of_nat (size out.1) <= Z.max counter l).
Proof.
  induction imdb_ids as [|i ids IH]; intros counter result self out; subst out.
  { simpl. split; [auto|]. split; [auto|]. intros; lia. }
  cbn [bulk_loop].
  destruct (match limit with Some l => bool_decide (l <= counter) | None => false end) eqn:Hlim.
  { simpl. split; [auto|]. split; [auto|]. intros; lia. }
  destruct (bool_decide (i = "")) eqn:Hi.
  { destruct (IH counter result self) as (H1 & H2 & H3). split; [|by split].
    intros id p Hp. destruct (H1 id p Hp) as [?|(? & ? & ? & ?)]; [by left|].
    right. repeat split; try done. by apply list_elem_of_further. }
  apply bool_decide_eq_false in Hi.
  destruct (fetch_movie transport i self) as [payload self1] eqn:Hf.
  assert (forall p, payload = Some p -> _cache self1 !! i = Some p) as Hsome.
  { intros p Hp. pose proof (fetch_movie_some i p self) as H. rewrite Hf in H. by apply H. }
  assert (forall id e, _cache self !! id = Some e -> _cache self1 !! id = Some e) as Hkeep.
  { intros id e He. pose proof (fetch_movie_keeps transport id i e self He) as H.
    by rewrite Hf in H. }
  set (result1 := match payload with
                  | Some p => if truthy payload then <[i:=p]> result else result
                  | None => result
                  end).
  destruct (IH (counter + 1) result1 self1) as (H1 & H2 & H3).
  split; [|split].
  - intros id p Hp. destruct (H1 id p Hp) as [Hr|(? & ? & ? & ?)].
    + unfold result1 in Hr. destruct payload as [q|]; [|by left].
      unfold truthy in Hr. destruct (bool_decide (q = ∅)) eqn:Hq; simpl in Hr; [by left|].
      apply bool_decide_eq_false in Hq.
      destruct (decide (i = id)) as [<-|Hne].
      * rewrite lookup_insert_eq in Hr. injection Hr as <-.
        right. repeat split; try done; [apply list_elem_of_here|].
        apply H2. by apply Hsome.
      * rewrite lookup_insert_ne in Hr by done. by left.
    + right. repeat split; try done. by apply list_elem_of_further.
  - intros id e He. apply H2. by apply Hkeep.
  - intros l -> Hsize. simpl in Hlim. apply bool_decide_eq_false in Hlim.
    specialize (H3 l eq_refl).
    assert (Z.of_nat (size result1) <= counter + 1) as Hs1.
    { unfold result1. destruct payload as [q|]; [|lia].
      destruct (truthy (Some q)); [|lia].
      destruct (result !! i) eqn:E.
      - rewrite <- (insert_delete_eq result), map_size_insert_None by apply lookup_delete_eq.
        rewrite <- (insert_id result i _ E) in Hsize at 1.
        rewrite <- (insert_delete_eq result), map_size_insert_None in Hsize
          by apply lookup_delete_eq. lia.
      - rewrite map_size_insert_None by done. lia. }
    specialize (H3 Hs1). lia.
Qed.

(** X11: a bulk fetch returns entries only for non-empty ids of its input,
    each one a non-empty payload that the cache holds for the id
    afterwards; it never drops or changes an entry of the cache; and with
    a limit [l >= 0] it returns at most [l] entries. *)
Theorem fetch_bulk_result_cached (imdb_ids : list string) (limit : option Z) (self : Client) :
  let out := fetch_bulk transport imdb_ids limit self in
  (forall id p, out.1 !! id = Some p ->
     id <> "" /\ id ∈ imdb_ids /\ p <> ∅ /\ _cache out.2 !! id = Some p) /\
  (forall id e, _cache self !! id = Some e -> _cache out.2 !! id = Some e) /\
  (forall l, limit = Some l -> 0 <= l -> Z.of_nat (size out.1) <= l).
Proof.
  intros out. subst out. unfold fetch_bulk.
  destruct (bulk_loop_invariant imdb_ids limit 0 ∅ self) as (H1 & H2 & H3).
  split; [|split; [done|]].
  - intros id p Hp. destruct (H1 id p Hp) as [H|H]; [by rewrite lookup_empty in H | done].
  - intros l Hl Hpos. specialize (H3 l Hl). rewrite map_size_empty in H3. lia.
Qed.

Lemma payloads_loop_bulk_loop (imdb_ids : list string) (limit : option Z) :
  "" ∉ imdb_ids -> limit <> Some 0 ->
  forall idx payloads self,
    payloads_loop transport imdb_ids limit idx payloads self
    = bulk_loop transport imdb_ids limit idx payloads self.
Proof.
  intros Hids Hlim. induction imdb_ids as [|i ids IH]; intros idx payloads self; [done|].
  cbn [payloads_loop bulk_loop].
  apply not_elem_of_cons in Hids as [Hi Hids].
  assert (match limit with
          | Some l => negb (Z.eqb l 0) && bool_decide (l <= idx)
          | None => false
          end = match limit with Some l => bool_decide (l <= idx) | None => false end) as ->.
  { destruct limit as [l|]; [|done]. destruct (Z.eqb_spec l 0); [congruence|done]. }
  destruct (match limit with Some l => bool_decide (l <= idx) | None => false end); [done|].
  rewrite bool_decide_eq_false_2 by done.
  destruct (fetch_movie transport i self) as [payload self1]. by apply IH.
Qed.

Lemma payloads_loop_zero (imdb_ids : list string) :
  forall idx payloads self,
    payloads_loop transport imdb_ids (Some 0) idx payloads self
    = payloads_loop transport imdb_ids None idx payloads self.
Proof.
  induction imdb_ids as [|i ids IH]; intros idx payloads self; [done|].
  cbn [payloads_loop]. simpl.
  destruct (fetch_movie transport i self) as [payload self1]. apply IH.
Qed.

(** X12: the orchestrator's own loop [_fetch_api_payloads] does what
    [fetch_bulk] does when no id is empty and the limit is not 0.  A limit
    of 0 is no limit for it, while [fetch_bulk] with a limit of 0 fetches
    nothing. *)
Theorem fetch_api_payloads_vs_fetch_bulk (imdb_ids : list string) (self : Client) :
  (forall limit, "" ∉ imdb_ids -> limit <> Some 0 ->
     _fetch_api_payloads transport imdb_ids self limit
     = fetch_bulk transport imdb_ids limit self) /\
  _fetch_api_payloads transport imdb_ids self (Some 0)
    = _fetch_api_payloads transport imdb_ids self None /\
  fetch_bulk transport imdb_ids (Some 0) self = (∅, self).
Proof.
  split; [|split].
  - intros limit Hids Hlim. by apply payloads_loop_bulk_loop.
  - apply payloads_loop_zero.
  - unfold fetch_bulk. by destruct imdb_ids.
Qed.
End ClientMore.


Lemma negative_answer_is_final_witness :
  let self := ApiClient.new_client 3 (1 # 4) ∅ in
  let payload : gmap string string := {[ "Response" := "False"; "Error" := "Movie not found!" ]} in
  let result := ApiClient.fetch_movie not_found_service "tt0000001" self in
  let marker := ApiClient.negative (default "unknown error" (payload !! "Error")) in
  result.1 = None /\
  ApiClient._cache result.2 = <["tt0000001" := marker]> (ApiClient._cache self) /\
  ApiClient.requests result.2 = (ApiClient.requests self + 0 + 1)%nat /\
  ApiClient.events result.2 = ApiClient.events self ++
    flat_map (fun k => [ApiClient.Request "tt0000001"; ApiClient.Backoff (ApiClient.backoff_delay k)])
      (seqZ 1 (Z.of_nat 0)) ++
    [ApiClient.Request "tt0000001";
     ApiClient.Persist (<["tt0000001" := marker]> (ApiClient._cache self))].
Proof.
  intros self payload.
  apply (negative_answer_is_final not_found_service self "tt0000001" 0 payload).
  - simpl. lia.
  - reflexivity.
  - intros j Hj. lia.
  - reflexivity.
  - reflexivity.
Defined.

Lemma fetch_movie_request_budget_witness :
  let self := ApiClient.new_client 3 (1 # 4) ∅ in
  (ApiClient.requests self
   < ApiClient.requests (ApiClient.fetch_movie flaky_service "tt0114709" self).2)%nat.
Proof.
  intros self.
  apply (proj1 (proj2 (proj2 (fetch_movie_request_budget flaky_service self "tt0114709")))).
  - reflexivity.
  - simpl. lia.
Defined.

Lemma fetch_bulk_result_cached_witness :
  let self := ApiClient.new_client 3 (1 # 4) ∅ in
  (Z.of_nat (size (ApiClient.fetch_bulk flaky_service ["tt0114709"; "tt0113497"] (Some 1) self).1)
   <= 1).
Proof.
  intros self.
  apply (proj2 (proj2 (fetch_bulk_result_cached flaky_service ["tt0114709"; "tt0113497"]
                         (Some 1) self)) 1).
  - reflexivity.
  - lia.
Defined.

Lemma fetch_api_payloads_vs_fetch_bulk_witness :
  let self := ApiClient.new_client 3 (1 # 4) ∅ in
  Etl._fetch_api_payloads flaky_service ["tt0114709"; "tt0113497"] self (Some 1)
  = ApiClient.fetch_bulk flaky_service ["tt0114709"; "tt0113497"] (Some 1) self.
Proof.
  intros self.
  apply (proj1 (fetch_api_payloads_vs_fetch_bulk flaky_service ["tt0114709"; "tt0113497"] self)).
  - intros H. apply elem_of_cons in H as [H|H]; [discriminate|].
    apply elem_of_cons in H as [H|H]; [discriminate|]. by apply elem_of_nil in H.
  - discriminate.
Defined.

(** ** Titles and external ids *)

Section YearFacts.
Import Text Re Titles.

Lemma isdigit_value (c : ascii) : isdigit c = true -> 0 <= digit_value c <= 9.
Proof.
  unfold isdigit, digit_value. intros [H1 H2]%andb_true_iff.
  apply Nat.leb_le in H1, H2. lia.
Qed.

Lemma isdigit_not_space (c : ascii) : isdigit c = true -> isspace c = false.
Proof.
  unfold isdigit, isspace. intros [H1 H2]%andb_true_iff.
  apply Nat.leb_le in H1, H2.
  repeat match goal with
  | |- context [(?a <=? ?b)%nat] => destruct (Nat.leb_spec a b)
  | |- context [(?a =? ?b)%nat] => destruct (Nat.eqb_spec a b)
  end; simpl; try done; lia.
Qed.

Lemma non_space_app (a b : list ascii) : non_space (a ++ b) = non_space a ++ non_space b.
Proof. unfold non_space. apply List.filter_app. Qed.

Lemma non_space_digits (y : list ascii) : forallb isdigit y = true -> non_space y = y.
Proof.
  induction y as [|c y IH]; [done|]. cbn [forallb]. intros [Hc Hy]%andb_true_iff.
  unfold non_space in *. cbn [List.filter]. rewrite (isdigit_not_space c Hc). simpl.
  by rewrite IH.
Qed.

Lemma non_space_spaces (w : list ascii) : forallb isspace w = true -> non_space w = [].
Proof.
  induction w as [|c w IH]; [done|]. cbn [forallb]. intros [Hc Hw]%andb_true_iff.
  unfold non_space in *. cbn [List.filter]. rewrite Hc. simpl. by apply IH.
Qed.

(** X13: year extraction and title cleaning agree on every title.  A year
    is found exactly when the title ends in a parenthesized four-digit
    year, trailing whitespace aside; the year is then between 0 and
    9999, and what cleaning takes out of the title, whitespace aside, is
    that parenthesized year and nothing else.  A cleaned title never
    starts or ends with whitespace and never has two whitespace
    characters in a row. *)
Theorem clean_title_drops_the_year_found (title : string) :
  (is_Some (_extract_year title) <-> has_year_suffix title = true) /\
  (forall year, _extract_year title = Some year ->
     0 <= year <= 9999 /\
     exists digits,
       length digits = 4%nat /\ forallb isdigit digits = true /\
       digits_value 0 digits = year /\
       non_space (chars title)
       = non_space (chars (_clean_title title)) ++ "("%char :: digits ++ [")"%char]) /\
  (let clean := chars (_clean_title title) in
   starts_with_space clean = false /\ ends_with_space clean = false /\
   adjacent_spaces clean = false).
Proof.
  destruct (has_year_suffix title) eqn:Hs.
  - destruct (has_year_suffix_shape title Hs) as (before & y & trail & Ht & Hl & Hd & Hw).
    destruct (title_with_year before y trail Hl Hd Hw) as [Hclean Hyear].
    rewrite <- Ht, str_chars in Hclean, Hyear.
    destruct (normalize_whitespace_spec (str before)) as (Hn1 & Hn2 & Hn3 & Hn4).
    rewrite chars_str in Hn1.
    split; [rewrite Hyear; split; [done | by eexists]|]. split.
    + intros year. rewrite Hyear. intros [= <-]. split.
      * destruct y as [|a [|b [|c [|d [|]]]]]; try done.
        cbn [forallb] in Hd.
        apply andb_true_iff in Hd as [Ha%isdigit_value Hd].
        apply andb_true_iff in Hd as [Hb%isdigit_value Hd].
        apply andb_true_iff in Hd as [Hc%isdigit_value Hd].
        apply andb_true_iff in Hd as [Hd%isdigit_value _].
        unfold digits_value. cbn [foldl]. lia.
      * exists y. split; [done|]. split; [done|]. split; [done|].
        rewrite Hclean, Hn1, Ht, non_space_app. f_equal.
        change ("("%char :: y ++ ")"%char :: trail) with (["("%char] ++ y ++ [")"%char] ++ trail).
        rewrite !non_space_app, (non_space_digits y Hd), (non_space_spaces trail Hw).
        by rewrite app_nil_r.
    + rewrite Hclean. done.
  - destruct (title_without_year title Hs) as [Hyear Hclean].
    destruct (normalize_whitespace_spec title) as (Hn1 & Hn2 & Hn3 & Hn4).
    rewrite Hyear, Hclean. split; [split; [by intros [? ?] | done]|]. split; [done|]. done.
Qed.
End YearFacts.

Lemma clean_title_drops_the_year_found_witness :
  0 <= 1995 <= 9999 /\
  exists digits,
    length digits = 4%nat /\ forallb Text.isdigit digits = true /\
    Text.digits_value 0 digits = 1995 /\
    Titles.non_space (Text.chars "Toy Story (1995)")
    = Titles.non_space (Text.chars (Titles._clean_title "Toy Story (1995)"))
      ++ "("%char :: digits ++ [")"%char].
Proof.
  apply (proj1 (proj2 (clean_title_drops_the_year_found "Toy Story (1995)")) 1995).
  vm_compute. reflexivity.
Defined.

Section IdFacts.
Import Text Ids.

(** X14: two numeric ids that are not negative get the same external id
    only if they are the same integer after truncation, whatever their
    number of digits. *)
Theorem format_imdb_id_injective (v w : Cell) (n m : Z) :
  numeric_value v = Some n -> numeric_value w = Some m -> 0 <= n -> 0 <= m ->
  _format_imdb_id v = _format_imdb_id w -> n = m.
Proof.
  intros Hv Hw Hn Hm. rewrite (format_numeric v n Hv Hn), (format_numeric w m Hw Hm).
  intros H. assert (zfill 7 (str_of_int n) = zfill 7 (str_of_int m)) as H'.
  { by injection H. }
  clear H. apply (f_equal chars) in H'.
  destruct (str_of_int_digits n Hn) as (Hne1 & Hd1 & Hval1).
  destruct (str_of_int_digits m Hm) as (Hne2 & Hd2 & Hval2).
  rewrite (zfill_digits 7 _ Hne1 Hd1), (zfill_digits 7 _ Hne2 Hd2) in H'.
  rename H' into H.
  apply (f_equal (digits_value 0)) in H. rewrite !digits_value_zeros in H. congruence.
Qed.
End IdFacts.

Lemma format_imdb_id_injective_witness :
  Ids._format_imdb_id (PyFloat (114709 # 1)) = Ids._format_imdb_id (PyInt 114709) /\ 114709 = 114709.
Proof.
  split; [reflexivity|].
  apply (format_imdb_id_injective (PyFloat (114709 # 1)) (PyInt 114709) 114709 114709);
    [reflexivity | reflexivity | lia | lia | reflexivity].
Defined.

(** ** Genres and details *)

Section GenreFacts.
Import Text Titles Genres.

Lemma split_pieces (sep : ascii) (cs : list ascii) :
  (exists first pieces after, split sep cs = first :: pieces /\ cs = first ++ after) /\
  forall piece, piece ∈ split sep cs ->
    (sep ∉ piece) /\ exists before after, cs = before ++ piece ++ after.
Proof.
  induction cs as [|c cs [(first & pieces & rest & Hsplit & Hcs) IH]]; simpl.
  { split; [by exists [], [], []|]. intros piece ->%list_elem_of_singleton.
    split; [apply not_elem_of_nil | by exists [], []]. }
  destruct (Ascii.eqb_spec c sep) as [->|Hc].
  - split; [by exists [], (split sep cs), (sep :: cs)|].
    intros piece [->|Hin]%elem_of_cons.
    + split; [apply not_elem_of_nil | by exists [], (sep :: cs)].
    + destruct (IH piece Hin) as (Hs & before & after & ->).
      split; [done|]. by exists (sep :: before), after.
  - rewrite Hsplit in *. split; [exists (c :: first), pieces, rest; by rewrite Hcs|].
    intros piece [->|Hin]%elem_of_cons.
    + destruct (IH first (list_elem_of_here _ _)) as (Hs & _).
      split.
      * intros [?|?]%elem_of_cons; [congruence | done].
      * exists [], rest. by rewrite Hcs.
    + destruct (IH piece (list_elem_of_further _ _ _ Hin)) as (Hs & before & after & Heq).
      split; [done|]. exists (c :: before), after. by rewrite Heq at 1.
Qed.

Lemma strip_infix (cs : list ascii) :
  exists w w', cs = w ++ strip cs ++ w'.
Proof.
  destruct (lstrip_split cs) as (w & _ & Hw).
  destruct (rstrip_split (lstrip cs)) as (w' & _ & Hw').
  exists w, w'. unfold strip. by rewrite <- Hw', <- Hw.
Qed.

Lemma strip_no_space_at_ends (cs : list ascii) :
  starts_with_space (strip cs) = false /\ ends_with_space (strip cs) = false.
Proof.
  unfold strip. split.
  - apply starts_with_space_rstrip, lstrip_no_leading_space.
  - apply rstrip_no_trailing_space.
Qed.

(** X15: every tag that [_parse_genres] gives is a piece of the genres
    string as it stands there: not empty, free of the separator, with no
    whitespace at either end.  A value that is not a string, and a
    string that is the marker for "no genres" (in any letter case,
    whitespace around it aside), give no tag. *)
Theorem parsed_genres_are_trimmed_pieces :
  (forall genres tag, tag ∈ _parse_genres genres ->
     tag <> "" /\ ("|"%char ∉ chars tag) /\
     starts_with_space (chars tag) = false /\ ends_with_space (chars tag) = false /\
     exists s before after, genres = PyStr s /\ chars s = before ++ chars tag ++ after) /\
  (forall genres, (forall s, genres <> PyStr s) -> _parse_genres genres = []) /\
  (forall s, lower (strip (chars s)) = chars "(no genres listed)" ->
     _parse_genres (PyStr s) = []).
Proof.
  split; [|split].
  - intros genres tag Hin. destruct genres as [| | | |s| |]; try by apply elem_of_nil in Hin.
    simpl in Hin. destruct (bool_decide _); [by apply elem_of_nil in Hin|].
    apply list_elem_of_omap in Hin as (piece & Hpiece & Htag).
    destruct (bool_decide (strip piece = [])) eqn:Hne; [done|].
    apply bool_decide_eq_false in Hne. injection Htag as <-. rewrite chars_str.
    destruct (proj2 (split_pieces "|" (chars s)) piece Hpiece) as (Hsep & before & after & Hs).
    destruct (strip_infix piece) as (w & w' & Hw).
    destruct (strip_no_space_at_ends piece) as [H1 H2].
    split; [|split; [|split; [done|split; [done|]]]].
    + intros H. apply Hne. by destruct (strip piece).
    + intros H. apply Hsep. rewrite Hw. apply elem_of_app. right. apply elem_of_app. by left.
    + exists s, (before ++ w), (w' ++ after). split; [done|].
      rewrite Hs. rewrite Hw at 1. by rewrite <- !app_assoc.
  - intros genres H. destruct genres; try done. by destruct (H s).
  - intros s H. simpl. by rewrite bool_decide_eq_true_2.
Qed.

Lemma ascii_compare_trans (a b c : ascii) :
  Ascii.compare a b <> Gt -> Ascii.compare b c <> Gt ->
  Ascii.compare a c <> Gt /\ (Ascii.compare a c = Eq -> Ascii.compare a b = Eq /\ Ascii.compare b c = Eq).
Proof.
  unfold Ascii.compare. rewrite !N.compare_le_iff, !N.compare_eq_iff. intros H1 H2.
  split; [lia|]. intros H. rewrite H in *. lia.
Qed.

Lemma str_le_trans (a b c : string) : str_le a b -> str_le b c -> str_le a c.
Proof.
  unfold str_le, String.leb. revert b c.
  induction a as [|x a IH]; intros [|y b] [|z c]; simpl; try done.
  intros H1 H2.
  assert (Ascii.compare x y <> Gt) as Hxy by (by destruct (Ascii.compare x y)).
  assert (Ascii.compare y z <> Gt) as Hyz by (by destruct (Ascii.compare y z)).
  destruct (ascii_compare_trans x y z Hxy Hyz) as [Hxz Heq].
  destruct (Ascii.compare x z) eqn:E; [|done|done].
  destruct (Heq eq_refl) as [E1 E2]. rewrite E1 in H1. rewrite E2 in H2.
  by apply (IH b c).
Qed.

Lemma str_le_total (a b : string) : str_le a b \/ str_le b a.
Proof. apply String.leb_total. Qed.

Lemma strongly_sorted_strict (l : list string) :
  StronglySorted str_le l -> NoDup l -> StronglySorted (fun a b => str_le a b /\ a <> b) l.
Proof.
  induction 1 as [|x l Hs IH Hx]; intros Hnd; [constructor|].
  apply NoDup_cons in Hnd as [Hnotin Hnd]. constructor; [by apply IH|].
  apply Forall_forall. intros y Hy. split.
  - by apply (proj1 (Forall_forall _ _) Hx).
  - intros ->. done.
Qed.

Lemma build_genres_lookup_elem (genresList : list (list string)) (genre : string) :
  genre ∈ build_genres_lookup genresList <-> exists row, row ∈ genresList /\ genre ∈ row.
Proof.
  unfold build_genres_lookup. rewrite merge_sort_Permutation, elem_of_remove_dups.
  rewrite list_elem_of_In, in_concat.
  split; intros (row & H1 & H2); exists row; by rewrite ?list_elem_of_In in *.
Qed.

Lemma map_movie_genres_elem (movieId : list Z) (genresList : list (list string))
    (pair : Load.MovieGenreRecord) :
  pair ∈ map_movie_genres movieId genresList ->
  Load.genreName pair ∈ build_genres_lookup genresList /\ Load.mg_movieId pair ∈ movieId.
Proof.
  intros Hin. unfold map_movie_genres in Hin.
  apply list_elem_of_In, in_concat in Hin as (recs & Hrecs & Hin).
  apply list_elem_of_In in Hrecs, Hin.
  apply list_elem_of_lookup in Hrecs as [i Hi].
  apply lookup_zip_with_Some in Hi as (movie_id & genres & -> & Hm & Hg).
  apply list_elem_of_fmap in Hin as (genre & -> & Hgenre). simpl. split.
  - apply build_genres_lookup_elem. exists genres. split; [|done].
    by apply list_elem_of_lookup_2 in Hg.
  - by apply list_elem_of_lookup_2 in Hm.
Qed.

(** X16: the genre vocabulary is strictly increasing in the order of
    [str], so it holds no name twice, and it holds exactly the tags of the
    rows; every genre name that [map_movie_genres] pairs with a movie is
    in it, each pair carries the id of a movie of the table, and there
    is one pair per movie row and tag. *)
Theorem genre_vocabulary_covers_pairs (movieId : list Z) (genresList : list (list string)) :
  let vocabulary := build_genres_lookup genresList in
  StronglySorted (fun a b => str_le a b /\ a <> b) vocabulary /\
  (forall genre, genre ∈ vocabulary <-> exists row, row ∈ genresList /\ genre ∈ row) /\
  (forall pair, pair ∈ map_movie_genres movieId genresList ->
     Load.genreName pair ∈ vocabulary /\ Load.mg_movieId pair ∈ movieId) /\
  (length movieId = length genresList ->
     length (map_movie_genres movieId genresList) = length (concat genresList)).
Proof.
  intros vocabulary. unfold vocabulary.
  split; [|split; [apply build_genres_lookup_elem|split; [apply map_movie_genres_elem|]]].
  - unfold build_genres_lookup. apply strongly_sorted_strict.
    + apply StronglySorted_merge_sort; [intros a b c; apply str_le_trans | intros a b; apply str_le_total].
    + rewrite merge_sort_Permutation. apply NoDup_remove_dups.
  - unfold map_movie_genres. clear. revert genresList.
    induction movieId as [|m ms IH]; intros [|g gs]; simpl; try done.
    intros [= H]. rewrite !length_app, length_fmap. by rewrite IH.
Qed.
End GenreFacts.

Lemma parsed_genres_are_trimmed_pieces_witness :
  let genres := PyStr "Adventure| Animation |" in
  let tag := "Animation" in
  tag <> "" /\ ("|"%char ∉ Text.chars tag) /\
  Titles.starts_with_space (Text.chars tag) = false /\
  Titles.ends_with_space (Text.chars tag) = false /\
  exists s before after, genres = PyStr s /\ Text.chars s = before ++ Text.chars tag ++ after.
Proof.
  intros genres tag. apply (proj1 parsed_genres_are_trimmed_pieces genres tag).
  change (tag ∈ ["Adventure"; "Animation"]).
  apply list_elem_of_further, list_elem_of_here.
Defined.

Lemma genre_vocabulary_covers_pairs_witness :
  length (Genres.map_movie_genres [1] toy_story_genres_list)
  = length (concat toy_story_genres_list).
Proof.
  apply (proj2 (proj2 (proj2 (genre_vocabulary_covers_pairs [1] toy_story_genres_list)))).
  reflexivity.
Defined.

Section GenreLoad.
Import Chunking Database Schema Load LoadSpec Pipeline Genres.

Lemma apply_genre_rows (names : list string) :
  forall s, exists s',
    apply_rows sql_insert_genre names s = Some s' /\
    (forall name, name ∈ names \/ is_Some (genres s !! name) -> is_Some (genres s' !! name)) /\
    (0 <= genre_seq s -> (forall name id, genres s !! name = Some id -> id <> 0) ->
     0 <= genre_seq s' /\ forall name id, genres s' !! name = Some id -> id <> 0).
Proof.
  induction names as [|name names IH]; intros s.
  { exists s. split; [done|]. split; [|done]. intros name [H|H]; [by apply elem_of_nil in H | done]. }
  cbn [apply_rows]. unfold sql_insert_genre at 1.
  destruct (genres s !! name) as [id|] eqn:E.
  - destruct (IH s) as (s' & Ha & Hin & Hinv). exists s'. split; [done|]. split; [|done].
    intros k [[->|Hk]%elem_of_cons|Hk]; apply Hin; [right; by eexists | by left | by right].
  - destruct (IH (set_genres s (<[name := genre_seq s + 1]> (genres s)) (genre_seq s + 1)))
      as (s' & Ha & Hin & Hinv).
    exists s'. split; [done|]. split.
    + intros k Hk. apply Hin. simpl. destruct (decide (name = k)) as [->|Hne].
      * right. rewrite lookup_insert_eq. by eexists.
      * rewrite lookup_insert_ne by done.
        destruct Hk as [[?|?]%elem_of_cons|?]; [congruence | by left | by right].
    + intros Hseq Hids. apply Hinv; simpl; [lia|].
      intros k id. destruct (decide (name = k)) as [->|Hne].
      * rewrite lookup_insert_eq. intros [= <-]. lia.
      * rewrite lookup_insert_ne by done. apply Hids.
Qed.

Lemma length_omap_all {X Y : Type} (f : X -> option Y) (l : list X) :
  Forall (fun x => is_Some (f x)) l -> length (omap f l) = length l.
Proof.
  induction 1 as [|x l [y Hy] _ IH]; [done|]. simpl. rewrite Hy. simpl. f_equal. exact IH.
Qed.

Lemma length_omap_le {X Y : Type} (f : X -> option Y) (l : list X) :
  (length (omap f l) <= length l)%nat.
Proof.
  induction l as [|x l IH]; [done|]. change (omap f (x :: l)) with
    (match f x with Some y => y :: omap f l | None => omap f l end).
  destruct (f x); simpl; lia.
Qed.

(** X17: loading the genre vocabulary never fails, and once it is loaded
    into a genre table whose ids are not 0, the movie-genre loader drops
    none of the pairs of [map_movie_genres]: each of them has its genre
    in the table and becomes a row to insert. *)
Theorem vocabulary_load_keeps_every_pair (movieId : list Z) (genresList : list (list string))
    (b : nat) (c : Connection Store) :
  (1 <= b)%nat ->
  0 <= genre_seq (pending c) ->
  (forall name id, genres (pending c) !! name = Some id -> id <> 0) ->
  let loaded := insert_genres (build_genres_lookup genresList) b c in
  let pairs := map_movie_genres movieId genresList in
  succeeded loaded.2 = true /\
  length (movie_genre_rows (_genre_map loaded.1) pairs) = length pairs /\
  (forall pair, pair ∈ pairs -> is_Some (_genre_map loaded.1 !! genreName pair)).
Proof.
  intros Hb Hseq Hids loaded pairs. unfold loaded, insert_genres, run_insert, _genre_map.
  pose proof (transaction_execute_chunks sql_insert_genre (build_genres_lookup genresList) b c Hb)
    as Ht.
  destruct (apply_genre_rows (build_genres_lookup genresList) (pending c))
    as (s' & Ha & Hin & Hinv).
  destruct (transaction _ c) as [c1 [[]|e]]; [|destruct Ht as [Ht _]; congruence].
  destruct Ht as [Ht Hp]. rewrite Ha in Ht. injection Ht as ->. cbn [fst snd].
  destruct (Hinv Hseq Hids) as [_ Hids'].
  assert (forall pair, pair ∈ pairs -> is_Some (genres (pending c1) !! genreName pair)) as Hall.
  { intros pair Hpair. rewrite Hp. apply Hin. left.
    by apply (map_movie_genres_elem movieId genresList). }
  split; [done|]. split; [|done].
  apply length_omap_all. apply Forall_forall. intros pair Hpair.
  destruct (Hall pair Hpair) as [id Hid]. rewrite Hid.
  rewrite Hp in Hid. apply Hids' in Hid. destruct (Z.eqb_spec id 0); [done | by eexists].
Qed.
End GenreLoad.

Section DetailFacts.
Import Chunking Database Schema Load LoadSpec Pipeline ApiClient Details.
Variable json_dumps : Payload -> string.

Lemma movie_id_lookup_row (imdbId : list (option string)) (movieId : list Z)
    (key : option string) (movie_id : Z) :
  movie_id_lookup imdbId movieId !! key = Some movie_id ->
  (key, movie_id) ∈ zip imdbId movieId.
Proof.
  unfold movie_id_lookup. generalize (zip imdbId movieId). intros l.
  assert (forall d : gmap (option string) Z,
            foldl (fun lookup row => <[row.1 := row.2]> lookup) d l !! key = Some movie_id ->
            (key, movie_id) ∈ l \/ d !! key = Some movie_id) as H.
  { induction l as [|[k v] l IH]; intros d; simpl; [by right|].
    intros Hd. destruct (IH _ Hd) as [Hin|Hd']; [left; by apply list_elem_of_further|].
    destruct (decide (k = key)) as [->|Hne].
    - rewrite lookup_insert_eq in Hd'. injection Hd' as ->. left. apply list_elem_of_here.
    - rewrite lookup_insert_ne in Hd' by done. by right. }
  intros Hl. destruct (H ∅ Hl) as [?|Hd]; [done|]. by rewrite lookup_empty in Hd.
Qed.

Lemma build_movie_details_row (imdbId : list (option string)) (movieId : list Z)
    (api_data : list (string * Payload)) (detail : DetailRecord) :
  detail ∈ build_movie_details json_dumps imdbId movieId api_data ->
  exists imdb_id payload,
    (imdb_id, payload) ∈ api_data /\
    detail = detail_of json_dumps (d_movieId detail) payload /\
    payload !! "Response" <> Some "False" /\
    d_movieId detail <> 0 /\
    (Some imdb_id, d_movieId detail) ∈ zip imdbId movieId.
Proof.
  unfold build_movie_details.
  intros Hin. apply list_elem_of_omap in Hin as ([imdb_id payload] & Hitem & Hd).
  destruct (movie_id_lookup imdbId movieId !! Some imdb_id) as [movie_id|] eqn:E; [|done].
  destruct (Z.eqb_spec movie_id 0) as [|Hne]; [done|].
  destruct (is_negative payload) eqn:Hneg; [done|]. injection Hd as <-.
  exists imdb_id, payload. simpl. split; [done|]. split; [done|].
  split; [by apply bool_decide_eq_false in Hneg|]. split; [done|].
  by apply movie_id_lookup_row.
Qed.

(** X18: [build_movie_details] gives a detail only for a payload that is
    not a negative answer and whose id is the external id of a row of
    the movie table with a movie id other than 0; the detail carries
    that movie id and the fields of the payload.  A payload marked
    negative gives nothing, so the negative markers that the client's
    cache hands out never become details. *)
Theorem details_come_from_found_payloads (imdbId : list (option string)) (movieId : list Z)
    (api_data : list (string * Payload)) :
  let details := build_movie_details json_dumps imdbId movieId api_data in
  (forall detail, detail ∈ details ->
     exists imdb_id payload,
       (imdb_id, payload) ∈ api_data /\
       detail = detail_of json_dumps (d_movieId detail) payload /\
       payload !! "Response" <> Some "False" /\
       d_movieId detail <> 0 /\
       (Some imdb_id, d_movieId detail) ∈ zip imdbId movieId) /\
  (length details <= length api_data)%nat /\
  (forall before after imdb_id reason,
     api_data = before ++ (imdb_id, negative reason) :: after ->
     details = build_movie_details json_dumps imdbId movieId (before ++ after)).
Proof.
  intros details. unfold details, build_movie_details. split; [|split].
  - apply build_movie_details_row.
  - apply length_omap_le.
  - intros before after imdb_id reason ->. rewrite !omap_app. f_equal. simpl.
    destruct (movie_id_lookup imdbId movieId !! Some imdb_id) as [movie_id|]; [|done].
    by destruct (Z.eqb movie_id 0).
Qed.

Lemma apply_detail_rows (rows : list (Z * Detail)) :
  forall s,
    is_Some (apply_rows sql_replace_movie_detail rows s) <->
    Forall (fun row => movie_exists s row.1 = true) rows.
Proof.
  induction rows as [|[m d] rows IH]; intros s.
  { simpl. split; [constructor | by eexists]. }
  cbn [apply_rows]. unfold sql_replace_movie_detail at 1. rewrite Forall_cons. cbn [fst].
  destruct (movie_exists s m) eqn:E.
  - rewrite IH. split; [intros H; split; [done|exact H] | by intros [_ H]].
  - split; [by intros [? ?] | by intros [? _]].
Qed.

(** X19: the details that [build_movie_details] gives load without a
    foreign-key failure into any store that holds the movies of the
    table the details were built from. *)
Theorem details_of_loaded_movies_load (imdbId : list (option string)) (movieId : list Z)
    (api_data : list (string * Payload)) (b : nat) (c : Connection Store) :
  (1 <= b)%nat ->
  Forall (fun movie_id => movie_exists (pending c) movie_id = true) movieId ->
  let details := build_movie_details json_dumps imdbId movieId api_data in
  succeeded (insert_movie_details details b c).2 = true.
Proof.
  intros Hb Hmovies details. unfold insert_movie_details.
  apply run_insert_succeeded; [done|]. apply apply_detail_rows.
  unfold detail_rows. rewrite Forall_fmap. apply Forall_forall. intros detail Hin. simpl.
  destruct (build_movie_details_row imdbId movieId api_data detail Hin)
    as (imdb_id & payload & _ & _ & _ & _ & Hrow).
  apply (proj1 (Forall_forall _ _) Hmovies). by apply elem_of_zip_r in Hrow.
Qed.
End DetailFacts.

Lemma vocabulary_load_keeps_every_pair_witness :
  let c := LoadSpec.connect Schema.empty_store in
  let loaded := Load.insert_genres (Genres.build_genres_lookup toy_story_genres_list) 2 c in
  let pairs := Genres.map_movie_genres [1] toy_story_genres_list in
  Pipeline.succeeded loaded.2 = true /\
  length (Load.movie_genre_rows (Load._genre_map loaded.1) pairs) = length pairs /\
  (forall pair, pair ∈ pairs -> is_Some (Load._genre_map loaded.1 !! Load.genreName pair)).
Proof.
  intros c.
  apply (vocabulary_load_keeps_every_pair [1] toy_story_genres_list 2 c).
  - lia.
  - simpl. lia.
  - intros name id H. simpl in H. by rewrite lookup_empty in H.
Defined.

Lemma details_come_from_found_payloads_witness :
  Details.build_movie_details dumps_plain [Some "tt0114709"] [1] toy_story_api_data
  = Details.build_movie_details dumps_plain [Some "tt0114709"] [1]
      ([("tt0114709", toy_story_payload)] ++ []).
Proof.
  apply (proj2 (proj2 (details_come_from_found_payloads dumps_plain [Some "tt0114709"] [1]
                         toy_story_api_data))
           [("tt0114709", toy_story_payload)] [] "tt0000001" "Movie not found!").
  reflexivity.
Defined.

Lemma details_of_loaded_movies_load_witness :
  let details :=
    Details.build_movie_details dumps_plain [Some "tt0114709"] [1] toy_story_api_data in
  Pipeline.succeeded
    (Load.insert_movie_details details 2 (LoadSpec.connect store_toy_story)).2 = true.
Proof.
  apply (details_of_loaded_movies_load dumps_plain [Some "tt0114709"] [1] toy_story_api_data 2
           (LoadSpec.connect store_toy_story)).
  - lia.
  - apply Forall_cons. split; [reflexivity | apply Forall_nil_2].
Defined.

(** ** Tables *)

Section FrameFacts.
Import Pandas.

Lemma index_of_lookup (name : string) (names : list string) (i : nat) :
  index_of name names = Some i -> names !! i = Some name.
Proof.
  revert i. induction names as [|n names IH]; intros i; [done|]. simpl.
  destruct (String.eqb_spec name n) as [->|Hne]; [by intros [= <-]|].
  destruct (index_of name names) as [j|]; [|done]. intros [= <-]. by apply IH.
Qed.

Lemma getitem_column (df : DataFrame) (name : string) (column : list Cell) :
  getitem df name = Return column ->
  exists i, index_of name (columns df) = Some i /\ column = cell_at i <$> rows df.
Proof.
  unfold getitem. destruct (index_of name (columns df)) as [i|]; [|done].
  intros [= <-]. by exists i.
Qed.

Lemma zip_with_fmap_diag {X Y Z : Type} (f : X -> Y -> Z) (h : X -> Y) (l : list X) :
  zip_with f l (h <$> l) = (fun x => f x (h x)) <$> l.
Proof. induction l as [|x l IH]; [done|]. simpl. f_equal. exact IH. Qed.

(** A column replaced by a function of its own cells. *)
Lemma setitem_apply (df : DataFrame) (name : string) (i : nat) (g : Cell -> Cell) :
  index_of name (columns df) = Some i ->
  setitem df name (g <$> (cell_at i <$> rows df))
  = {| columns := columns df;
       rows := (fun row => <[i := g (cell_at i row)]> row) <$> rows df |}.
Proof.
  intros Hi. unfold setitem. rewrite Hi. f_equal.
  rewrite <- list_fmap_compose. apply zip_with_fmap_diag.
Qed.

Lemma where_true_filter (df : DataFrame) (i : nat) (mask : Cell -> bool) :
  where_true df (mask <$> (cell_at i <$> rows df))
  = {| columns := columns df;
       rows := List.filter (fun row => mask (cell_at i row)) (rows df) |}.
Proof.
  unfold where_true. f_equal. induction (rows df) as [|row l IH]; [done|].
  simpl. destruct (mask (cell_at i row)); simpl; [f_equal|]; exact IH.
Qed.

Lemma length_keep_first (ixs : list nat) (rs : list (list Cell)) :
  forall seen, (length (keep_first ixs seen rs) <= length rs)%nat.
Proof.
  induction rs as [|row rs IH]; intros seen; simpl; [done|].
  destruct (existsb _ seen); simpl.
  - specialize (IH seen). lia.
  - match goal with |- context [keep_first ixs ?s rs] => specialize (IH s) end. lia.
Qed.

Lemma length_filter_le {X : Type} (f : X -> bool) (l : list X) :
  (length (List.filter f l) <= length l)%nat.
Proof. induction l as [|x l IH]; simpl; [done|]. destruct (f x); simpl; lia. Qed.

Lemma in_range_number (v : Cell) :
  ge v (1 # 2) && le v 5 = true ->
  exists q, (v = PyFloat q \/ exists z, v = PyInt z /\ q = inject_Z z) /\
            (1 # 2 <= q)%Q /\ (q <= 5)%Q.
Proof.
  intros [H1 H2]%andb_true_iff. destruct v as [| |q|z| | |]; try done; simpl in *.
  - exists q. apply Qle_bool_iff in H1, H2. split; [by left | done].
  - exists (inject_Z z). apply Qle_bool_iff in H1, H2. split; [right; by exists z | done].
Qed.
End FrameFacts.

Section ValidationRange.
Import Pandas Transform.
Variable parse_number : string -> option Q.
Variable seconds_to_instant : Q -> option Z.

(** X20: what validation returns has the columns of its input and no more
    rows, and in every row the rating is a number from 1/2 to 5 and the
    timestamp is an instant. *)
Theorem validated_ratings_are_in_range (ratings validated : DataFrame) :
  _validate_ratings_dataframe parse_number seconds_to_instant ratings = Return validated ->
  columns validated = columns ratings /\
  (len validated <= len ratings)%nat /\
  exists i_rating i_timestamp,
    index_of "rating" (columns ratings) = Some i_rating /\
    index_of "timestamp" (columns ratings) = Some i_timestamp /\
    forall row, row ∈ rows validated ->
      (exists q, (cell_at i_rating row = PyFloat q \/
                  exists z, cell_at i_rating row = PyInt z /\ q = inject_Z z) /\
                 (1 # 2 <= q)%Q /\ (q <= 5)%Q) /\
      (exists ns, cell_at i_timestamp row = Timestamp ns).
Proof.
  unfold _validate_ratings_dataframe, drop_duplicates.
  destruct (indices_of _ (columns ratings)) as [ixs|e] eqn:Hix; [|done]. cbn [mbind Outcome_bind].
  set (df0 := {| columns := columns ratings; rows := keep_first ixs [] (rows ratings) |}).
  destruct (getitem df0 "rating") as [rating|e] eqn:Hr; [|done]. cbn [mbind Outcome_bind].
  apply getitem_column in Hr as (i_r & Hir & ->).
  change (columns df0) with (columns ratings) in Hir.
  rewrite (setitem_apply df0 "rating" i_r _ Hir).
  set (df1 := {| columns := columns df0; rows := _ |}).
  assert (getitem df1 "rating" = Return (cell_at i_r <$> rows df1)) as ->.
  { unfold getitem. simpl. by rewrite Hir. }
  cbn [mbind Outcome_bind]. rewrite where_true_filter.
  set (df2 := {| columns := columns df1; rows := _ |}).
  destruct (getitem df2 "timestamp") as [timestamp|e] eqn:Ht; [|done]. cbn [mbind Outcome_bind].
  apply getitem_column in Ht as (i_t & Hit & ->).
  change (columns df2) with (columns ratings) in Hit.
  rewrite (setitem_apply df2 "timestamp" i_t _ Hit).
  set (df3 := {| columns := columns df2; rows := _ |}).
  unfold dropna at 2. simpl columns. cbn [indices_of]. rewrite Hir, Hit.
  cbn [mbind Outcome_bind].
  set (df4 := {| columns := columns ratings; rows := _ |}).
  assert (getitem df4 "timestamp" = Return (cell_at i_t <$> rows df4)) as ->.
  { unfold getitem. simpl. by rewrite Hit. }
  cbn [mbind Outcome_bind].
  rewrite (setitem_apply df4 "timestamp" i_t _ Hit).
  unfold dropna. simpl columns. cbn [indices_of]. rewrite Hit.
  intros [= <-]. simpl columns. split; [done|]. split.
  { unfold len. simpl rows.
    repeat (etrans; [apply length_filter_le|]; rewrite ?length_fmap).
    apply length_keep_first. }
  exists i_r, i_t. split; [done|]. split; [done|].
  intros row Hrow. simpl rows in Hrow.
  apply list_elem_of_In, filter_In in Hrow as [Hrow Hna].
  apply list_elem_of_In, list_elem_of_fmap in Hrow as (r2 & -> & Hr2).
  apply list_elem_of_In, filter_In in Hr2 as [Hr2 _].
  apply list_elem_of_In, list_elem_of_fmap in Hr2 as (r1 & -> & Hr1).
  apply list_elem_of_In, filter_In in Hr1 as [_ Hmask].
  assert (i_r <> i_t) as Hne.
  { intros ->. apply index_of_lookup in Hir, Hit. congruence. }
  split.
  - apply in_range_number. unfold cell_at in *.
    by rewrite !list_lookup_insert_ne by done.
  - cbn [forallb] in Hna. rewrite andb_true_r in Hna. unfold cell_at in *.
    destruct (decide (i_t < length r1)%nat) as [Hlt|Hge].
    + rewrite list_lookup_insert_eq in Hna |- * by (by rewrite length_insert).
      rewrite list_lookup_insert_eq in Hna |- * by done. simpl in Hna |- *.
      destruct (to_numeric parse_number (default NaN (r1 !! i_t))) as [| |q|z| | |];
        simpl in Hna |- *; try done.
      * destruct (seconds_to_instant q); [by eexists | done].
      * destruct (seconds_to_instant (inject_Z z)); [by eexists | done].
    + rewrite lookup_ge_None_2 in Hna; [done|]. rewrite !length_insert. lia.
Qed.
End ValidationRange.

Lemma validated_ratings_are_in_range_witness :
  let validated :=
    {| Pandas.columns := ["userId"; "movieId"; "rating"; "timestamp"];
       Pandas.rows := [[PyInt 1; PyInt 1; PyFloat (4 # 1); Timestamp 964982703000000000]] |} in
  Pandas.columns validated = Pandas.columns scenario_ratings /\
  (Pandas.len validated <= Pandas.len scenario_ratings)%nat /\
  exists i_rating i_timestamp,
    Pandas.index_of "rating" (Pandas.columns scenario_ratings) = Some i_rating /\
    Pandas.index_of "timestamp" (Pandas.columns scenario_ratings) = Some i_timestamp /\
    forall row, row ∈ Pandas.rows validated ->
      (exists q, (Pandas.cell_at i_rating row = PyFloat q \/
                  exists z, Pandas.cell_at i_rating row = PyInt z /\ q = inject_Z z) /\
                 (1 # 2 <= q)%Q /\ (q <= 5)%Q) /\
      (exists ns, Pandas.cell_at i_timestamp row = Timestamp ns).
Proof.
  intros validated.
  apply (validated_ratings_are_in_range parse_decimal nanoseconds scenario_ratings validated).
  vm_compute. reflexivity.
Defined.

Section ExtractionOutcomes.
Import Pandas Extract.

Lemma length_setitem (df : DataFrame) (name : string) (values : list Cell) :
  length values = length (rows df) ->
  length (rows (setitem df name values)) = length (rows df).
Proof.
  intros H. unfold setitem. destruct (index_of name (columns df)); simpl;
    rewrite length_zip_with; lia.
Qed.

Lemma getitem_length (df : DataFrame) (name : string) (column : list Cell) :
  getitem df name = Return column -> length column = length (rows df).
Proof.
  unfold getitem. destruct (index_of name (columns df)); [|done].
  intros [= <-]. by rewrite length_fmap.
Qed.

Lemma merge_outcome (left right : DataFrame) (key : string) :
  match merge_left_one_to_one left right key with
  | Return merged => length (rows merged) = length (rows left)
  | Raise e => True
  end.
Proof.
  unfold merge_left_one_to_one.
  destruct (index_of key (columns left)) as [i|]; [|done].
  destruct (index_of key (columns right)) as [j|]; [|done].
  destruct (indices_of _ (columns right)) as [js|e]; [|done].
  destruct (_ || _); [done|]. simpl. by rewrite length_fmap.
Qed.

(** X21: when extraction returns, the movie table it returns has exactly
    one row per row of the movies file, whether the movie has a link or
    not, and the ratings are the ratings file as it was read. *)
Theorem extraction_keeps_every_movie (files : Files) (extracted : Extracted) :
  extract_csv_data files = Return extracted ->
  len (movies extracted) = len (_read_csv (MOVIES_CSV files)) /\
  ratings extracted = _read_csv (RATINGS_CSV files).
Proof.
  unfold extract_csv_data.
  destruct (select _ _) as [links_ids|e]; cbn [mbind Outcome_bind]; [|done].
  pose proof (merge_outcome (_read_csv (MOVIES_CSV files)) links_ids "movieId") as Hm.
  destruct (merge_left_one_to_one _ _ _) as [movie_link|e]; cbn [mbind Outcome_bind]; [|done].
  destruct (getitem movie_link "title") as [titles|e] eqn:Ht; cbn [mbind Outcome_bind]; [|done].
  destruct (getitem _ "imdbId") as [imdb_ids|e] eqn:Hi; cbn [mbind Outcome_bind]; [|done].
  intros [= <-]. simpl. split; [|done]. unfold len.
  apply getitem_length in Ht, Hi.
  rewrite length_setitem by (by rewrite length_fmap).
  rewrite length_setitem by (by rewrite length_fmap). done.
Qed.
End ExtractionOutcomes.

Lemma extraction_keeps_every_movie_witness :
  let files := {| Extract.MOVIES_CSV := Some toy_story_movies; Extract.RATINGS_CSV := None;
                  Extract.LINKS_CSV := Some toy_story_links |} in
  let extracted :=
    {| Extract.movies :=
         {| Pandas.columns := ["movieId"; "title"; "genres"; "imdbId"; "year"];
            Pandas.rows := [[PyInt 1; PyStr "Toy Story (1995)";
                             PyStr "Adventure|Animation|Children";
                             PyStr "tt0114709"; PyInt 1995]] |};
       Extract.ratings := Pandas.empty_frame |} in
  Pandas.len (Extract.movies extracted) = Pandas.len (Extract._read_csv (Extract.MOVIES_CSV files)) /\
  Extract.ratings extracted = Extract._read_csv (Extract.RATINGS_CSV files).
Proof.
  intros files extracted. apply (extraction_keeps_every_movie files extracted).
  vm_compute. reflexivity.
Defined.

(** ** From the transformed tables to the loads *)

Section RunFacts.
Import Chunking Database Schema Load LoadSpec Pipeline Genres Details Transformed.
Variable json_dumps : ApiClient.Payload -> string.


End RunFacts.


(** ** The cache file *)

Section CacheFileFacts.
Import ApiClient CacheFile Etl.
Variable transport : nat -> string -> Response.

Lemma attempt_loop_written (cache_file : File) (imdb_id : string) (attempts : list Z) :
  forall self,
    _load_cache (written cache_file (events self)) = _cache self ->
    let out := attempt_loop transport imdb_id attempts self in
    _load_cache (written cache_file (events out.2)) = _cache out.2.
Proof.
  induction attempts as [|a attempts IH]; intros self Hsync; [done|].
  cbn [attempt_loop]. unfold get.
  destruct (transport (requests self) imdb_id) as [|body].
  - apply IH. simpl. unfold written in *. by rewrite !foldl_snoc.
  - destruct (is_negative body); simpl; unfold written; by rewrite !foldl_snoc.
Qed.

Lemma fetch_movie_written (cache_file : File) (imdb_id : string) (self : Client) :
  _load_cache (written cache_file (events self)) = _cache self ->
  _load_cache (written cache_file (events (fetch_movie transport imdb_id self).2))
  = _cache (fetch_movie transport imdb_id self).2.
Proof.
  intros Hsync. unfold fetch_movie. destruct (_cache self !! imdb_id); [done|].
  by apply attempt_loop_written.
Qed.

Lemma bulk_loop_written (cache_file : File) (imdb_ids : list string) (limit : option Z) :
  forall counter result self,
    _load_cache (written cache_file (events self)) = _cache self ->
    let out := bulk_loop transport imdb_ids limit counter result self in
    _load_cache (written cache_file (events out.2)) = _cache out.2.
Proof.
  induction imdb_ids as [|i ids IH]; intros counter result self Hsync; [done|].
  cbn [bulk_loop]. destruct (match limit with Some _ => _ | None => _ end); [done|].
  destruct (bool_decide (i = "")); [by apply IH|].
  pose proof (fetch_movie_written cache_file i self Hsync) as H.
  destruct (fetch_movie transport i self) as [payload self1]. by apply IH.
Qed.

Lemma payloads_loop_written (cache_file : File) (imdb_ids : list string) (limit : option Z) :
  forall idx payloads self,
    _load_cache (written cache_file (events self)) = _cache self ->
    let out := payloads_loop transport imdb_ids limit idx payloads self in
    _load_cache (written cache_file (events out.2)) = _cache out.2.
Proof.
  induction imdb_ids as [|i ids IH]; intros idx payloads self Hsync; [done|].
  cbn [payloads_loop]. destruct (match limit with Some _ => _ | None => _ end); [done|].
  pose proof (fetch_movie_written cache_file i self Hsync) as H.
  destruct (fetch_movie transport i self) as [payload self1]. by apply IH.
Qed.

(** X23: the cache file follows the cache.  A client opened on a cache
    file, whatever the file holds, has after any bulk fetch, and after
    the fetches of [_fetch_api_payloads], written its whole cache to the
    file or left both as they were: a client opened on the file
    afterwards starts with the cache the first one ended with. *)
Theorem cache_file_follows_cache (cache_file : File) (retries : Z) (delay : Q)
    (imdb_ids : list string) (limit : option Z) :
  let self := open_client retries delay cache_file in
  let bulk := (fetch_bulk transport imdb_ids limit self).2 in
  let run := (_fetch_api_payloads transport imdb_ids self limit).2 in
  _cache (open_client retries delay (written cache_file (events bulk))) = _cache bulk /\
  _cache (open_client retries delay (written cache_file (events run))) = _cache run.
Proof.
  intros self bulk run. split.
  - apply (bulk_loop_written cache_file imdb_ids limit 0 ∅ self). done.
  - apply (payloads_loop_written cache_file imdb_ids limit 0 ∅ self). done.
Qed.
End CacheFileFacts.
